(** * errgroup: a group of goroutines working on subtasks of a common task

    A small-step interleaving model of [errgroup.go] and the properties of
    its [Group] interface: [Go], [TryGo], [SetLimit], [Cancel], [Done] and
    [Wait].

    The struct [group] is a record; the channel [g.sem] is a reference into
    a store of channels, because [SetLimit] replaces the channel while
    goroutines may still be parked on the old one.  Every goroutine, the
    callers of the interface included, is a program counter in a pool; one
    step of the scheduler runs one goroutine up to its next synchronisation
    point.  Blocking is the absence of a step.  A subtask is a function of
    what it sees of the context; the scheduler decides when it looks. *)

From Stdlib Require Import ZArith List Lia String Bool Arith.
From stdpp Require Import base list.

Local Open Scope nat_scope.

(** ** The group *)

(** Go's [error]: [nil] is [None]. *)
Definition error := option string.

(** A subtask [func(ctx context.Context) error].  The body is opaque to the
    group; what it returns may depend on whether [ctx] was already
    cancelled when it looked. *)
Definition subtask := bool -> error.

(** [chan token]: tokens carry no data, so the buffer is its length. *)
Record chan := Chan { cap : nat; len : nat }.

(** [type group struct].  [ctx] keeps what the group can see of its
    context, whether [ctx.Done()] is closed; [cancel] below is the stored
    [cancel func()].  [wg] is the counter of the [sync.WaitGroup], [errOnce]
    the done flag of the [sync.Once]. *)
Record group := Group {
  ctx : bool;
  wg : nat;
  sem : option nat;
  errOnce : bool;
  err : error
}.

(** [New]: [context.WithCancel(ctx)]; a child of a cancelled parent is
    born cancelled. *)
Definition New (parent_done : bool) : group :=
  {| ctx := parent_done; wg := 0; sem := None; errOnce := false; err := None |}.

Definition cancel (g : group) : group :=
  {| ctx := true; wg := wg g; sem := sem g; errOnce := errOnce g; err := err g |}.

Definition set_err (e : error) (g : group) : group :=
  {| ctx := ctx g; wg := wg g; sem := sem g; errOnce := errOnce g; err := e |}.

Definition set_sem (s : option nat) (g : group) : group :=
  {| ctx := ctx g; wg := wg g; sem := s; errOnce := errOnce g; err := err g |}.

Definition set_wg (n : nat) (g : group) : group :=
  {| ctx := ctx g; wg := n; sem := sem g; errOnce := errOnce g; err := err g |}.

(** [g.errOnce.Do(body)]: the body runs only on the first call. *)
Definition errOnce_Do (body : group -> group) (g : group) : group :=
  if errOnce g then g
  else let g' := body g in
       {| ctx := ctx g'; wg := wg g'; sem := sem g'; errOnce := true; err := err g' |}.

(** Lines 90-95: [if err := f(g.ctx); err != nil { g.errOnce.Do(func() {
    g.err = err; g.cancel() }) }], after [f] has returned [e]. *)
Definition record (e : error) (g : group) : group :=
  match e with
  | None => g
  | Some _ => errOnce_Do (fun g0 => cancel (set_err e g0)) g
  end.

(** [len(g.sem)]; the length of a nil channel is 0. *)
Definition chan_len (chans : list chan) (s : option nat) : nat :=
  match s with
  | None => 0
  | Some c => match chans !! c with Some ch => len ch | None => 0 end
  end.

Inductive result (A : Type) :=
| Ok (a : A)
| Panic.
Arguments Ok {A} a.
Arguments Panic {A}.

(** [SetLimit], lines 134-143.  [make] allocates a fresh channel. *)
Definition SetLimit (n : Z) (g : group) (chans : list chan)
  : result (group * list chan) :=
  if (n <? 0)%Z then Ok (set_sem None g, chans)
  else if negb (chan_len chans (sem g) =? 0) then Panic
  else Ok (set_sem (Some (length chans)) g, chans ++ [Chan (Z.to_nat n) 0]).

(** The calls a client of the interface makes.  [CDone] is the
    non-blocking read [select { case <-g.Done(): ... default: }];
    [CParentCancel] is the owner of the context given to [New] calling its
    [cancel], which cancels the group's context with it. *)
Inductive cmd :=
| CGo (f : subtask)
| CTryGo (f : subtask)
| CSetLimit (n : Z)
| CWait
| CCancel
| CDone
| CParentCancel.

(** Where a goroutine stands.  A client carries the calls it still has to
    make; the constructors are named after the method and the statement the
    goroutine is about to run. *)
Inductive pc :=
| Client (k : list cmd)
| Go_send (c : nat) (f : subtask) (k : list cmd)   (* line 83, sending *)
| Go_parked (c : nat) (f : subtask) (k : list cmd) (* line 83, parked *)
| Go_add (f : subtask) (k : list cmd)              (* lines 86-96 *)
| TryGo_add (f : subtask) (k : list cmd)           (* lines 113-124 *)
| Wait_cancel (k : list cmd)                       (* line 71 *)
| Wait_ret (k : list cmd)                          (* line 72 *)
| Cancel_wg (k : list cmd)                         (* line 59 *)
| Cancel_ret (k : list cmd)                        (* line 60 *)
| Task_call (f : subtask)                          (* line 90, f(g.ctx) *)
| Task_once (e : error)                            (* lines 90-95 *)
| done_sem                                         (* line 41 *)
| done_recv (c : nat)                              (* line 42, receiving *)
| done_parked (c : nat)                            (* line 42, parked *)
| done_wg                                          (* line 44 *)
| Exit
| Panicked.

Inductive op := OpGo | OpTryGo | OpSetLimit | OpWait | OpCancel | OpDone.

Inductive value := VUnit | VBool (b : bool) | VErr (e : error).

(** What an observer of the run can see; the history is kept newest
    first. *)
Inductive event :=
| EvStart (f : subtask)                 (* go func() { ... }() *)
| EvFail (tid : nat) (e : string)       (* a subtask returned non-nil *)
| EvSetErr (tid : nat) (e : string)     (* g.err = err *)
| EvCancel (tid : nat)                  (* g.cancel() *)
| EvParentCancel (tid : nat)            (* the parent's cancel() *)
| EvRet (tid : nat) (o : op) (v : value)
| EvPanic (tid : nat) (o : op).

Record config := Config {
  g : group;
  chans : list chan;
  threads : list pc;
  trace : list event
}.

Definition set_g (g' : group) (σ : config) : config :=
  {| g := g'; chans := chans σ; threads := threads σ; trace := trace σ |}.

Definition set_pc (i : nat) (p : pc) (σ : config) : config :=
  {| g := g σ; chans := chans σ; threads := <[i := p]> (threads σ);
     trace := trace σ |}.

Definition set_chan (c : nat) (ch : chan) (σ : config) : config :=
  {| g := g σ; chans := <[c := ch]> (chans σ); threads := threads σ;
     trace := trace σ |}.

Definition emit (evs : list event) (σ : config) : config :=
  {| g := g σ; chans := chans σ; threads := threads σ;
     trace := evs ++ trace σ |}.

(** [g.wg.Add(1); go func() { ... }()], lines 86-87 and 113-114. *)
Definition go_func (f : subtask) (σ : config) : config :=
  {| g := set_wg (S (wg (g σ))) (g σ); chans := chans σ;
     threads := threads σ ++ [Task_call f];
     trace := EvStart f :: trace σ |}.

(** ** Channels

    The runtime's [chansend] and [chanrecv]: a sender first looks for a
    parked receiver and hands the token over, then for room in the buffer,
    and otherwise has to wait; a receiver first looks for a parked sender,
    then for a token in the buffer.  Which of several parked goroutines is
    woken is the scheduler's choice [j]. *)
Definition parked_recv (c : nat) (p : pc) : bool :=
  match p with done_parked c' => c =? c' | _ => false end.

Definition parked_send (c : nat) (p : pc) : bool :=
  match p with Go_parked c' _ _ => c =? c' | _ => false end.

Inductive chanop :=
| Proceed (σ' : config)
| WouldBlock
| Stuck.

Definition chansend (c j : nat) (σ : config) : chanop :=
  match chans σ !! c with
  | None => Stuck
  | Some ch =>
      if existsb (parked_recv c) (threads σ) then
        match threads σ !! j with
        | Some (done_parked c') =>
            if c =? c' then Proceed (set_pc j done_wg σ) else Stuck
        | _ => Stuck
        end
      else if len ch <? cap ch then
        Proceed (set_chan c (Chan (cap ch) (S (len ch))) σ)
      else WouldBlock
  end.

Definition chanrecv (c j : nat) (σ : config) : chanop :=
  match chans σ !! c with
  | None => Stuck
  | Some ch =>
      if existsb (parked_send c) (threads σ) then
        match threads σ !! j with
        | Some (Go_parked c' f k) =>
            if c =? c' then Proceed (set_pc j (Go_add f k) σ) else Stuck
        | _ => Stuck
        end
      else if 0 <? len ch then
        Proceed (set_chan c (Chan (cap ch) (pred (len ch))) σ)
      else WouldBlock
  end.

(** Events of lines 90-95 when goroutine [i] got [e] from its subtask. *)
Definition record_events (i : nat) (e : error) (g : group) : list event :=
  match e with
  | None => []
  | Some m =>
      if errOnce g then [EvFail i m]
      else [EvCancel i; EvSetErr i m; EvFail i m]
  end.

Definition step (i j : nat) (σ : config) : option config :=
  match threads σ !! i with
  | None => None
  | Some p =>
    match p with
    | Client [] => None
    (* Go, line 82: if g.sem != nil *)
    | Client (CGo f :: k) =>
        match sem (g σ) with
        | None => Some (set_pc i (Go_add f k) σ)
        | Some c => Some (set_pc i (Go_send c f k) σ)
        end
    (* Go, line 83: g.sem <- token{} *)
    | Go_send c f k =>
        match chansend c j σ with
        | Proceed σ' => Some (set_pc i (Go_add f k) σ')
        | WouldBlock => Some (set_pc i (Go_parked c f k) σ)
        | Stuck => None
        end
    | Go_parked _ _ _ => None
    (* Go, lines 86-96 *)
    | Go_add f k =>
        Some (emit [EvRet i OpGo VUnit] (set_pc i (Client k) (go_func f σ)))
    (* TryGo, lines 104-111 *)
    | Client (CTryGo f :: k) =>
        match sem (g σ) with
        | None => Some (set_pc i (TryGo_add f k) σ)
        | Some c =>
            match chansend c j σ with
            | Proceed σ' => Some (set_pc i (TryGo_add f k) σ')
            | WouldBlock =>
                Some (emit [EvRet i OpTryGo (VBool false)]
                        (set_pc i (Client k) σ))
            | Stuck => None
            end
        end
    (* TryGo, lines 113-124 *)
    | TryGo_add f k =>
        Some (emit [EvRet i OpTryGo (VBool true)]
                (set_pc i (Client k) (go_func f σ)))
    (* SetLimit *)
    | Client (CSetLimit n :: k) =>
        match SetLimit n (g σ) (chans σ) with
        | Ok (g', chans') =>
            Some {| g := g'; chans := chans';
                    threads := <[i := Client k]> (threads σ);
                    trace := EvRet i OpSetLimit VUnit :: trace σ |}
        | Panic =>
            Some (emit [EvPanic i OpSetLimit] (set_pc i Panicked σ))
        end
    (* Wait, line 70: g.wg.Wait() *)
    | Client (CWait :: k) =>
        if wg (g σ) =? 0 then Some (set_pc i (Wait_cancel k) σ) else None
    (* Wait, line 71: g.cancel() *)
    | Wait_cancel k =>
        Some (emit [EvCancel i] (set_pc i (Wait_ret k) (set_g (cancel (g σ)) σ)))
    (* Wait, line 72: return g.err *)
    | Wait_ret k =>
        Some (emit [EvRet i OpWait (VErr (err (g σ)))] (set_pc i (Client k) σ))
    (* Cancel, line 58: g.cancel() *)
    | Client (CCancel :: k) =>
        Some (emit [EvCancel i] (set_pc i (Cancel_wg k) (set_g (cancel (g σ)) σ)))
    (* Cancel, line 59: g.wg.Wait() *)
    | Cancel_wg k =>
        if wg (g σ) =? 0 then Some (set_pc i (Cancel_ret k) σ) else None
    (* Cancel, line 60: return g.err *)
    | Cancel_ret k =>
        Some (emit [EvRet i OpCancel (VErr (err (g σ)))] (set_pc i (Client k) σ))
    (* Done, read without blocking *)
    (* the parent context is cancelled *)
    | Client (CParentCancel :: k) =>
        Some (emit [EvParentCancel i]
                (set_pc i (Client k) (set_g (cancel (g σ)) σ)))
    | Client (CDone :: k) =>
        Some (emit [EvRet i OpDone (VBool (ctx (g σ)))] (set_pc i (Client k) σ))
    (* the goroutine of Go and TryGo, line 90: f(g.ctx) *)
    | Task_call f => Some (set_pc i (Task_once (f (ctx (g σ)))) σ)
    (* lines 90-95 *)
    | Task_once e =>
        Some (emit (record_events i e (g σ))
                (set_pc i done_sem (set_g (record e (g σ)) σ)))
    (* done, line 41: if g.sem != nil *)
    | done_sem =>
        match sem (g σ) with
        | None => Some (set_pc i done_wg σ)
        | Some c => Some (set_pc i (done_recv c) σ)
        end
    (* done, line 42: <-g.sem *)
    | done_recv c =>
        match chanrecv c j σ with
        | Proceed σ' => Some (set_pc i done_wg σ')
        | WouldBlock => Some (set_pc i (done_parked c) σ)
        | Stuck => None
        end
    | done_parked _ => None
    (* done, line 44: g.wg.Done(); a negative counter panics *)
    | done_wg =>
        match wg (g σ) with
        | 0 => Some (set_pc i Panicked σ)
        | S n => Some (set_pc i Exit (set_g (set_wg n (g σ)) σ))
        end
    | Exit => None
    | Panicked => None
    end
  end.

(** A schedule names, step by step, the goroutine that runs and the parked
    goroutine it wakes if it wakes one. *)
Fixpoint run (sched : list (nat * nat)) (σ : config) : option config :=
  match sched with
  | [] => Some σ
  | (i, j) :: rest =>
      match step i j σ with
      | Some σ' => run rest σ'
      | None => None
      end
  end.

(** A fresh group and its clients. *)
Definition init (parent_done : bool) (scripts : list (list cmd)) : config :=
  {| g := New parent_done; chans := []; threads := map Client scripts;
     trace := [] |}.

Definition const_task (e : error) : subtask := fun _ => e.

(** ** Weights, histories and invariants *)

(** Weighted count of the goroutines of a pool. *)
Fixpoint sumf (w : pc -> nat) (l : list pc) : nat :=
  match l with
  | [] => 0
  | p :: l' => w p + sumf w l'
  end.

(** Goroutines started by [Go] or [TryGo] that have not yet run
    [g.wg.Done()]. *)
Definition live (p : pc) : nat :=
  match p with
  | Task_call _ | Task_once _ | done_sem | done_recv _ | done_parked _
  | done_wg => 1
  | _ => 0
  end.

Definition wg_inv (σ : config) : Prop := wg (g σ) = sumf live (threads σ).

(** The error of the first subtask that failed, in the order the failures
    happened (the history is newest first). *)
Fixpoint first_failure (tr : list event) : error :=
  match tr with
  | [] => None
  | ev :: old =>
      match first_failure old with
      | Some m => Some m
      | None => match ev with EvFail _ m => Some m | _ => None end
      end
  end.

Definition failed (tr : list event) : bool :=
  match first_failure tr with Some _ => true | None => false end.

Definition is_cancel (ev : event) : bool :=
  match ev with EvCancel _ | EvParentCancel _ => true | _ => false end.

Definition is_set_err (ev : event) : bool :=
  match ev with EvSetErr _ _ => true | _ => false end.

Definition is_fail (ev : event) : bool :=
  match ev with EvFail _ _ => true | _ => false end.

Definition is_TryGo_ret (ev : event) : bool :=
  match ev with EvRet _ OpTryGo _ => true | _ => false end.

(** [g.err] and [g.errOnce] are functions of the failures so far. *)
Definition err_inv (σ : config) : Prop :=
  err (g σ) = first_failure (trace σ) /\
  errOnce (g σ) = failed (trace σ) /\
  length (List.filter is_set_err (trace σ)) = (if failed (trace σ) then 1 else 0).

(** The context is cancelled exactly when the parent was or [g.cancel()]
    has been called. *)
Definition ctx_inv (pd : bool) (σ : config) : Prop :=
  ctx (g σ) = pd || existsb is_cancel (trace σ).

(** Goroutines inside [Wait] or [Cancel], past their [g.cancel()]. *)
Definition after_cancel (p : pc) : nat :=
  match p with
  | Wait_ret _ | Cancel_wg _ | Cancel_ret _ => 1
  | _ => 0
  end.

Definition cancel_inv (σ : config) : Prop :=
  0 < sumf after_cancel (threads σ) -> existsb is_cancel (trace σ) = true.

(** What every returned value in the history was computed from. *)
Fixpoint hist_ok (pd : bool) (tr : list event) : Prop :=
  match tr with
  | [] => True
  | ev :: old =>
      match ev with
      | EvRet _ OpWait v | EvRet _ OpCancel v =>
          v = VErr (first_failure old) /\ existsb is_cancel old = true
      | EvRet _ OpDone v => v = VBool (pd || existsb is_cancel old)
      | _ => True
      end /\ hist_ok pd old
  end.

Definition hist_inv (pd : bool) (σ : config) : Prop :=
  wg_inv σ /\ err_inv σ /\ ctx_inv pd σ /\ cancel_inv σ /\ hist_ok pd (trace σ).

(** Goroutines that still have to take a token out of [g.sem] in [done],
    and submissions that are past the gate but not yet started. *)
Definition holder (p : pc) : nat :=
  match p with
  | Go_add _ _ | TryGo_add _ _ | Task_call _ | Task_once _ | done_sem
  | done_recv _ => 1
  | _ => 0
  end.

(** The subtasks that are running: started, and still inside [f] or the
    capture of its error. *)
Definition running (p : pc) : nat :=
  match p with
  | Task_call _ | Task_once _ => 1
  | _ => 0
  end.

(** Goroutines that use another channel than [c], or are parked in
    [done]. *)
Definition stray (c : nat) (p : pc) : nat :=
  match p with
  | Go_send c' _ _ | Go_parked c' _ _ | done_recv c' =>
      if c' =? c then 0 else 1
  | done_parked _ => 1
  | _ => 0
  end.

(** Goroutines in the middle of a submission or of a subtask, up to the
    release of the slot. *)
Definition busy (p : pc) : nat :=
  match p with
  | Go_send _ _ _ | Go_parked _ _ _ | Go_add _ _ | TryGo_add _ _
  | Task_call _ | Task_once _ | done_sem | done_recv _ | done_parked _ => 1
  | _ => 0
  end.

Definition is_limit_call (ev : event) : bool :=
  match ev with
  | EvRet _ OpSetLimit _ | EvPanic _ OpSetLimit => true
  | _ => false
  end.

(** How often [SetLimit] has been called. *)
Definition limit_calls (tr : list event) : nat :=
  length (List.filter is_limit_call tr).

(** The gate is channel [c] of capacity [K], and every token in it belongs
    to a holder. *)
Definition gate_inv (c K : nat) (σ : config) : Prop :=
  sem (g σ) = Some c /\
  chans σ !! c = Some (Chan K (sumf holder (threads σ))) /\
  sumf holder (threads σ) <= K /\
  sumf (stray c) (threads σ) = 0.

(** Events that a closed gate allows: no subtask starts, [Go] does not
    return and [TryGo] returns [false]. *)
Definition calm (ev : event) : Prop :=
  match ev with
  | EvStart _ | EvRet _ OpGo _ => False
  | EvRet _ OpTryGo v => v = VBool false
  | _ => True
  end.

(** Events of a group without a limit: [TryGo] returns [true]. *)
Definition admits (ev : event) : Prop :=
  match ev with
  | EvRet _ OpTryGo v => v = VBool true
  | _ => True
  end.

(** Where a goroutine is inside a call of [Cancel]. *)
Definition in_Cancel (p : pc) : Prop :=
  match p with
  | Client (CCancel :: _) | Cancel_wg _ | Cancel_ret _ => True
  | _ => False
  end.

(** Where a goroutine is inside a call of [Go] or [TryGo]. *)
Definition in_submit (p : pc) : Prop :=
  match p with
  | Client (CGo _ :: _) | Client (CTryGo _ :: _) | Go_send _ _ _
  | Go_add _ _ | TryGo_add _ _ => True
  | _ => False
  end.

Definition with_trace (t : list event) (σ : config) : config :=
  {| g := g σ; chans := chans σ; threads := threads σ; trace := t |}.

(** The same configuration with the context cancelled or not. *)
Definition with_ctx (b : bool) (σ : config) : config :=
  set_g {| ctx := b; wg := wg (g σ); sem := sem (g σ);
           errOnce := errOnce (g σ); err := err (g σ) |} σ.

(** ** The client of the tests *)

(** The first non-nil error of a list, in the order of the list. *)
Fixpoint first_nonempty (errs : list error) : error :=
  match errs with
  | [] => None
  | Some m :: _ => Some m
  | None :: rest => first_nonempty rest
  end.

(** The client of [TestWithContext]: one [Go] for each error, then
    [Wait]. *)
Definition submit_all (errs : list error) : list cmd :=
  map (fun e => CGo (const_task e)) errs ++ [CWait].

(** A subtask of the client: it returns one of the errors. *)
Definition f_ok (errs : list error) (f : subtask) : Prop :=
  exists e, In e errs /\ f = const_task e.

(** What is left of the client's calls: some [Go], then [Wait]. *)
Fixpoint shape (errs : list error) (k : list cmd) : Prop :=
  match k with
  | [] => True
  | CGo f :: k' => f_ok errs f /\ shape errs k'
  | CWait :: k' => k' = []
  | _ => False
  end.

(** Where the goroutines of this client can be. *)
Definition pc_ok (errs : list error) (p : pc) : Prop :=
  match p with
  | Client k => shape errs k
  | Go_send _ f k | Go_parked _ f k | Go_add f k => f_ok errs f /\ shape errs k
  | Wait_cancel k | Wait_ret k => k = []
  | TryGo_add _ _ | Cancel_wg _ | Cancel_ret _ => False
  | Task_call f => f_ok errs f
  | Task_once e => forall m, e = Some m -> In (Some m) errs
  | _ => True
  end.

Definition fail_ok (errs : list error) (ev : event) : Prop :=
  match ev with
  | EvFail _ m => In (Some m) errs
  | _ => True
  end.

Definition prov_inv (errs : list error) (σ : config) : Prop :=
  Forall (pc_ok errs) (threads σ) /\ Forall (fail_ok errs) (trace σ).

(** Goroutines that call the interface. *)
Definition clients (p : pc) : nat :=
  match p with
  | Client _ | Go_send _ _ _ | Go_parked _ _ _ | Go_add _ _ | TryGo_add _ _
  | Wait_cancel _ | Wait_ret _ | Cancel_wg _ | Cancel_ret _ => 1
  | _ => 0
  end.

(** Goroutines between the two halves of [Wait]. *)
Definition waiting (p : pc) : nat :=
  match p with
  | Wait_cancel _ | Wait_ret _ => 1
  | _ => 0
  end.

(** A subtask that fails whatever it sees of the context. *)
Definition failing (f : subtask) : bool :=
  match f true, f false with
  | Some _, Some _ => true
  | _, _ => false
  end.

Definition has_failing (k : list cmd) : bool :=
  existsb (fun c => match c with CGo f => failing f | _ => false end) k.

(** Goroutines that will report a failure, or will submit a subtask that
    does. *)
Definition must_fail (p : pc) : nat :=
  match p with
  | Client k | Wait_cancel k | Wait_ret k =>
      if has_failing k then 1 else 0
  | Go_send _ f k | Go_parked _ f k | Go_add f k =>
      if failing f || has_failing k then 1 else 0
  | Task_call f => if failing f then 1 else 0
  | Task_once (Some _) => 1
  | _ => 0
  end.

(** One client; while it is between the halves of [Wait] no subtask is
    pending; and a failure that is due has happened or is still to come. *)
Definition single_inv (errs : list error) (σ : config) : Prop :=
  sumf clients (threads σ) <= 1 /\
  (0 < sumf waiting (threads σ) -> sumf live (threads σ) = 0) /\
  ((exists m, In (Some m) errs) ->
   failed (trace σ) = true \/ 0 < sumf must_fail (threads σ)).

(** The value of a [Wait] is not [nil] when a subtask of the client
    fails. *)
Definition wait_ok (errs : list error) (ev : event) : Prop :=
  match ev with
  | EvRet _ OpWait v => (exists m, In (Some m) errs) -> v <> VErr None
  | _ => True
  end.

Definition submit_inv (errs : list error) (pd : bool) (σ : config) : Prop :=
  hist_inv pd σ /\ prov_inv errs σ /\ single_inv errs σ /\
  Forall (wait_ok errs) (trace σ).

(** The schedule that lets every subtask finish before the next one is
    submitted: [n] is the goroutine that the next [Go] starts. *)
Fixpoint one_by_one (N n : nat) : list (nat * nat) :=
  match N with
  | 0 => [(0,0); (0,0); (0,0)]
  | S N' =>
      [(0,0); (0,0); (n,0); (n,0); (n,0); (n,0)] ++ one_by_one N' (S n)
  end.

(** What [Wait] returns when the subtasks of [errs] have run one after
    the other on a group whose capture stands at [g0]. *)
Definition settled (g0 : group) (errs : list error) : error :=
  if errOnce g0 then err g0 else first_nonempty errs.

(** ** Statements that the code does not satisfy as they stand *)

(** C1 read as it stands: [Wait] returns the first non-nil error in the
    order of submission. *)
Definition Wait_first_by_submission : Prop :=
  forall pd errs sched σ later v earlier,
    run sched (init pd [submit_all errs]) = Some σ ->
    trace σ = later ++ EvRet 0 OpWait v :: earlier ->
    v = VErr (first_nonempty errs).

(** C3 read as it stands: a call of [SetLimit] made while a subtask is
    running panics, whatever its argument. *)
Definition SetLimit_panics_whenever_running : Prop :=
  forall pd scripts sched σ i n k j,
    run sched (init pd scripts) = Some σ ->
    threads σ !! i = Some (Client (CSetLimit n :: k)) ->
    0 < sumf running (threads σ) ->
    exists σ', step i j σ = Some σ' /\ threads σ' !! i = Some Panicked.

(** The last sentence of C7 read as it stands: a [Cancel] that is called
    when no subtask has failed yet returns [nil]. *)
Definition Cancel_nil_if_called_before_failure : Prop :=
  forall pd scripts sched1 σ1 i k sched2 σ2 mid v,
    run sched1 (init pd scripts) = Some σ1 ->
    threads σ1 !! i = Some (Client (CCancel :: k)) ->
    (forall t m, ~ In (EvFail t m) (trace σ1)) ->
    run sched2 σ1 = Some σ2 ->
    trace σ2 = EvRet i OpCancel v :: mid ++ trace σ1 ->
    (forall v', ~ In (EvRet i OpCancel v') mid) ->
    v = VErr None.

(** C4 read as it stands: after [SetLimit(0)], called when no goroutine
    holds a slot (the gate holds no token), every [TryGo] returns [false]
    and leaves the group as it is. *)
Definition zero_limit_fails_every_TryGo : Prop :=
  forall pd scripts sched0 σ0 i j k sched σ t f k' a,
    run sched0 (init pd scripts) = Some σ0 ->
    threads σ0 !! i = Some (Client (CSetLimit 0 :: k)) ->
    chan_len (chans σ0) (sem (g σ0)) = 0 ->
    run ((i, j) :: sched) σ0 = Some σ ->
    limit_calls (trace σ) = S (limit_calls (trace σ0)) ->
    threads σ !! t = Some (Client (CTryGo f :: k')) ->
    step t a σ =
      Some (emit [EvRet t OpTryGo (VBool false)] (set_pc t (Client k') σ)).

(** ** Runs of the tests *)

Definition e1 : string := "errgroup_test: 1"%string.
Definition e2 : string := "errgroup_test: 2"%string.

(** Two subtasks under a limit of one: the second [Go] parks until the
    first subtask has released its slot. *)
Definition limit_demo : config :=
  init false [[CSetLimit 1; CGo (const_task None); CGo (const_task None); CWait]].

Definition limit_demo_sched : list (nat * nat) :=
  [(0,0); (0,0); (0,0); (0,0); (0,0); (1,0); (1,0); (1,0); (1,0); (0,0)].

(** [TestTryGo], "Block all calls": attempts under a limit of zero. *)
Definition zero_demo : config :=
  init false [[CSetLimit 0; CTryGo (const_task None); CTryGo (const_task None);
               CGo (const_task None)]].

(** Two failing subtasks; the one submitted second is scheduled first. *)
Definition two_failures : config :=
  init false [[CGo (const_task (Some e1)); CGo (const_task (Some e2)); CWait]].

Definition second_first : list (nat * nat) :=
  [(0,0); (0,0); (0,0); (0,0);
   (2,0); (2,0); (2,0); (2,0);
   (1,0); (1,0); (1,0); (1,0);
   (0,0); (0,0); (0,0)].

(** The end of the run in which the second subtask fails first. *)
Definition second_first_end : config :=
  Eval vm_compute in
    match run second_first two_failures with
    | Some σ => σ
    | None => two_failures
    end.

(** [TestWithContext]: after [Wait] the context is found cancelled. *)
Definition with_context : config :=
  init false [[CGo (const_task None); CWait; CDone]].

Definition with_context_sched : list (nat * nat) :=
  [(0,0); (0,0); (1,0); (1,0); (1,0); (1,0); (0,0); (0,0); (0,0); (0,0)].

Definition with_context_end : config :=
  Eval vm_compute in
    match run with_context_sched with_context with
    | Some σ => σ
    | None => with_context
    end.

(** A subtask is running under a limit of one when the limit is changed. *)
Definition relimit : config :=
  init false [[CSetLimit 1; CGo (const_task None); CSetLimit 2]].



(** A failing subtask submitted after [Wait] has returned. *)
Definition late_submit : config :=
  init false [[CWait; CGo (fun cancelled => if cancelled then Some e1 else None)]].

(** The group after that [Wait]. *)
Definition late_cancelled : config :=
  Eval vm_compute in
    match run [(0,0); (0,0); (0,0)] late_submit with
    | Some σ => σ
    | None => late_submit
    end.

(** ** More weights, invariants and runs *)

(** Goroutines that have panicked. *)
Definition panicked (p : pc) : nat :=
  match p with Panicked => 1 | _ => 0 end.

Definition is_limit_panic (ev : event) : bool :=
  match ev with EvPanic _ OpSetLimit => true | _ => false end.

(** The pending count is the number of live goroutines, and the
    goroutines that [step] has taken to [Panicked] are the callers of
    [SetLimit] that panicked. *)
Definition pending_inv (σ : config) : Prop :=
  wg (g σ) = sumf live (threads σ) /\
  sumf panicked (threads σ) = length (List.filter is_limit_panic (trace σ)).

(** Once the one-time capture has run, the context is cancelled. *)
Definition capture_inv (σ : config) : Prop :=
  errOnce (g σ) = true -> ctx (g σ) = true.

(** [TestZeroGroup] with [err1] and [err2]: [Wait] after each [Go]. *)
Definition zero_group : config :=
  init false [[CGo (const_task (Some e1)); CWait;
               CGo (const_task (Some e2)); CWait]].

Definition zero_group_sched : list (nat * nat) :=
  [(0,0); (0,0); (1,0); (1,0); (1,0); (1,0); (0,0); (0,0); (0,0);
   (0,0); (0,0); (2,0); (2,0); (2,0); (2,0); (0,0); (0,0); (0,0)].

Definition zero_group_end : config :=
  Eval vm_compute in
    match run zero_group_sched zero_group with
    | Some σ => σ
    | None => zero_group
    end.

(** The group has a limit of [K]: [SetLimit(K)] was called on it while
    nobody was busy and the gate was empty, and [SetLimit] has not been
    called since. *)
Definition under_limit (K : nat) (σ : config) : Prop :=
  exists pd scripts sched0 σ0 i j k sched,
    run sched0 (init pd scripts) = Some σ0 /\
    threads σ0 !! i = Some (Client (CSetLimit (Z.of_nat K) :: k)) /\
    sumf busy (threads σ0) = 0 /\
    chan_len (chans σ0) (sem (g σ0)) = 0 /\
    run ((i, j) :: sched) σ0 = Some σ /\
    limit_calls (trace σ) = S (limit_calls (trace σ0)).

(** Callers of [Go] parked on the gate. *)
Definition parked (p : pc) : nat :=
  match p with Go_parked _ _ _ => 1 | _ => 0 end.

(** A caller of [Go] is parked only on a full gate. *)
Definition full_inv (K : nat) (σ : config) : Prop :=
  0 < sumf parked (threads σ) -> sumf holder (threads σ) = K.

(** A goroutine that has nothing left to do. *)
Definition finished (p : pc) : bool :=
  match p with
  | Client [] | Exit | Panicked => true
  | _ => false
  end.

(** Goroutines at a channel operation. *)
Definition at_gate (p : pc) : nat :=
  match p with
  | Go_send _ _ _ | Go_parked _ _ _ | done_recv _ | done_parked _ => 1
  | _ => 0
  end.

(** A group on which no limit was ever set. *)
Definition nil_inv (σ : config) : Prop :=
  sem (g σ) = None /\ chans σ = [] /\ sumf at_gate (threads σ) = 0.

(** An upper bound on the steps a call takes, with the steps of the
    goroutine it starts. *)
Definition cost (c : cmd) : nat :=
  match c with
  | CGo _ => 10
  | CTryGo _ => 8
  | CWait | CCancel => 3
  | CSetLimit _ | CDone | CParentCancel => 1
  end.

Fixpoint costs (k : list cmd) : nat :=
  match k with
  | [] => 0
  | c :: k' => cost c + costs k'
  end.

(** An upper bound on the steps a goroutine has left. *)
Definition mu (p : pc) : nat :=
  match p with
  | Client k => costs k
  | Go_send _ _ k => 9 + costs k
  | Go_parked _ _ k => 8 + costs k
  | Go_add _ k | TryGo_add _ k => 7 + costs k
  | Wait_cancel k | Cancel_wg k => 2 + costs k
  | Wait_ret k | Cancel_ret k => 1 + costs k
  | Task_call _ => 6
  | Task_once _ => 5
  | done_sem => 4
  | done_recv _ => 3
  | done_parked _ => 2
  | done_wg => 1
  | Exit | Panicked => 0
  end.

(** Attempts and a blocking submission under a limit of one. *)
Definition gate_demo : config :=
  init false [[CSetLimit 1; CTryGo (const_task None); CGo (const_task None);
               CWait]].

(** The limit is set and no slot is taken. *)
Definition gate_open : config :=
  Eval vm_compute in
    match run [(0,0)] gate_demo with Some σ => σ | None => gate_demo end.

(** The slot is taken by the subtask of [TryGo]. *)
Definition gate_taken : config :=
  Eval vm_compute in
    match run [(0,0); (0,0)] gate_open with Some σ => σ | None => gate_demo end.

(** The caller of [Go] is parked on the gate. *)
Definition gate_parked : config :=
  Eval vm_compute in
    match run [(0,0); (0,0)] gate_taken with Some σ => σ | None => gate_demo end.


(** Everything has finished under the limit of one, and the limit is
    changed. *)
Definition relimit_quiet : config :=
  init false [[CSetLimit 1; CGo (const_task None); CWait; CSetLimit 2]].

Definition relimit_quiet_end : config :=
  Eval vm_compute in
    match run [(0,0); (0,0); (0,0); (0,0); (1,0); (1,0); (1,0); (1,0); (1,0);
               (0,0); (0,0); (0,0)] relimit_quiet with
    | Some σ => σ
    | None => relimit_quiet
    end.

(** The subtasks that the clients hand to [Go] or [TryGo]. *)
Definition submitted (scripts : list (list cmd)) (f : subtask) : Prop :=
  exists k, In k scripts /\ (In (CGo f) k \/ In (CTryGo f) k).

(** The errors that such a subtask can return. *)
Definition produced (scripts : list (list cmd)) (m : string) : Prop :=
  exists f b, submitted scripts f /\ f b = Some m.

Definition cmd_origin (scripts : list (list cmd)) (c : cmd) : Prop :=
  match c with
  | CGo f | CTryGo f => submitted scripts f
  | _ => True
  end.

(** Every subtask in the hands of a goroutine comes from a client, and
    every error from a subtask. *)
Definition pc_origin (scripts : list (list cmd)) (p : pc) : Prop :=
  match p with
  | Client k | Wait_cancel k | Wait_ret k | Cancel_wg k | Cancel_ret k =>
      Forall (cmd_origin scripts) k
  | Go_send _ f k | Go_parked _ f k | Go_add f k | TryGo_add f k =>
      submitted scripts f /\ Forall (cmd_origin scripts) k
  | Task_call f => submitted scripts f
  | Task_once e => forall m, e = Some m -> produced scripts m
  | _ => True
  end.

Definition ev_origin (scripts : list (list cmd)) (ev : event) : Prop :=
  match ev with
  | EvStart f => submitted scripts f
  | EvFail _ m => produced scripts m
  | _ => True
  end.

Definition origin_inv (scripts : list (list cmd)) (σ : config) : Prop :=
  Forall (pc_origin scripts) (threads σ) /\
  Forall (ev_origin scripts) (trace σ).

(** Calls that give the group no reason to cancel its context: no [Wait],
    no [Cancel], no cancellation of the parent, and only subtasks that
    return [nil]. *)
Definition harmless (c : cmd) : Prop :=
  match c with
  | CGo f | CTryGo f => forall b, f b = None
  | CSetLimit _ | CDone => True
  | CWait | CCancel | CParentCancel => False
  end.

Definition pc_harmless (p : pc) : Prop :=
  match p with
  | Client k => Forall harmless k
  | Go_send _ f k | Go_parked _ f k | Go_add f k | TryGo_add f k =>
      (forall b, f b = None) /\ Forall harmless k
  | Task_call f => forall b, f b = None
  | Task_once e => e = None
  | Wait_cancel _ | Wait_ret _ | Cancel_wg _ | Cancel_ret _ => False
  | _ => True
  end.

Definition ev_harmless (pd : bool) (ev : event) : Prop :=
  match ev with
  | EvRet _ OpDone v => v = VBool pd
  | EvFail _ _ | EvSetErr _ _ | EvCancel _ | EvParentCancel _ => False
  | _ => True
  end.

Definition harmless_inv (pd : bool) (σ : config) : Prop :=
  ctx (g σ) = pd /\ errOnce (g σ) = false /\ err (g σ) = None /\
  Forall pc_harmless (threads σ) /\ Forall (ev_harmless pd) (trace σ).

(** Goroutines about to receive from channel [c]. *)
Definition receiver (c : nat) (p : pc) : nat :=
  match p with
  | done_recv c' => if c' =? c then 1 else 0
  | _ => 0
  end.

(** Channel [c] is no longer the gate and nobody is about to receive from
    it. *)
Definition abandoned (c : nat) (σ : config) : Prop :=
  sem (g σ) <> Some c /\ c < length (chans σ) /\
  sumf (receiver c) (threads σ) = 0.

(** A closed gate is replaced while a caller of [Go] is parked on it, and
    a subtask then runs under the new gate. *)
Definition stranded : config :=
  init false [[CSetLimit 0; CGo (const_task None)];
              [CSetLimit 1; CTryGo (const_task None)]].

Definition stranded_mid : config :=
  Eval vm_compute in
    match run [(0,0); (0,0); (0,0); (1,0)] stranded with
    | Some σ => σ
    | None => stranded
    end.

Definition stranded_sched : list (nat * nat) :=
  [(1,0); (1,0); (2,0); (2,0); (2,0); (2,0); (2,0)].

Definition stranded_end : config :=
  Eval vm_compute in
    match run stranded_sched stranded_mid with
    | Some σ => σ
    | None => stranded
    end.

Definition is_SetLimit (c : cmd) : bool :=
  match c with CSetLimit _ => true | _ => false end.

(** The calls of [SetLimit] a goroutine still has to make. *)
Definition limits (p : pc) : nat :=
  match p with
  | Client k | Go_send _ _ k | Go_parked _ _ k | Go_add _ k | TryGo_add _ k
  | Wait_cancel k | Wait_ret k | Cancel_wg k | Cancel_ret k =>
      length (List.filter is_SetLimit k)
  | _ => 0
  end.

Definition is_Wait_ret (ev : event) : bool :=
  match ev with EvRet _ OpWait _ => true | _ => false end.

(** How often [Wait] has returned. *)
Definition count_waits (tr : list event) : nat :=
  length (List.filter is_Wait_ret tr).

(** The client of [TestZeroGroup]: for each error, [Go] and then
    [Wait]. *)
Definition go_and_wait (errs : list error) : list cmd :=
  flat_map (fun e => [CGo (const_task e); CWait]) errs.

(** The client is about to submit, or has nothing left to do. *)
Definition before (p : pc) : nat :=
  match p with
  | Client [] | Client (CGo _ :: _) | Go_add _ _ => 1
  | _ => 0
  end.

(** The client is about to call [Wait]. *)
Definition blocked (p : pc) : nat :=
  match p with Client (CWait :: _) => 1 | _ => 0 end.

(** Where the goroutines of this client can be when the errors [todo] are
    still to be waited for. *)
Definition seq_shape (todo : list error) (p : pc) : Prop :=
  match p with
  | Client k =>
      k = go_and_wait todo \/
      exists e todo', todo = e :: todo' /\ k = CWait :: go_and_wait todo'
  | Go_add f k =>
      exists e todo', todo = e :: todo' /\ f = const_task e /\
        k = CWait :: go_and_wait todo'
  | Wait_cancel k | Wait_ret k =>
      exists e todo', todo = e :: todo' /\ k = go_and_wait todo'
  | Task_call f => exists e todo', todo = e :: todo' /\ f = const_task e
  | Task_once e => exists todo', todo = e :: todo'
  | done_sem | done_wg | Exit => True
  | _ => False
  end.

(** The [n]-th [Wait] returned the first non-nil error among the first
    [n] that were submitted. *)
Fixpoint waits_ok (errs : list error) (tr : list event) : Prop :=
  match tr with
  | [] => True
  | ev :: old =>
      match ev with
      | EvRet _ OpWait v =>
          v = VErr (first_nonempty (firstn (S (count_waits old)) errs))
      | _ => True
      end /\ waits_ok errs old
  end.

(** The errors [done] have been waited for; the subtask of the next one
    is the only one that can be live, and its failure is on record once
    it has gone past the capture. *)
Definition seq_inv (errs : list error) (σ : config) : Prop :=
  exists done todo,
    errs = done ++ todo /\
    count_waits (trace σ) = length done /\
    sem (g σ) = None /\
    Forall (seq_shape todo) (threads σ) /\
    sumf before (threads σ) + sumf blocked (threads σ) +
      sumf waiting (threads σ) = 1 /\
    sumf live (threads σ) <= 1 /\
    (0 < sumf before (threads σ) + sumf waiting (threads σ) ->
     sumf live (threads σ) = 0) /\
    (0 < sumf before (threads σ) + sumf running (threads σ) ->
     first_failure (trace σ) = first_nonempty done) /\
    (sumf before (threads σ) + sumf running (threads σ) = 0 ->
     first_failure (trace σ) = first_nonempty (done ++ firstn 1 todo)) /\
    waits_ok errs (trace σ).

(** ** Subtasks that do not return

    [f(g.ctx)] is the client's code.  It can wait for something that does
    not come, run for ever or panic, and then the goroutine that called
    it never reaches [done].  [stalls f b] says that [f], called with a
    context in state [b], does not return; a goroutine about to call such
    a subtask has no step.  A subtask that waits for [<-ctx.Done()]
    stalls in a context that is not cancelled and returns in one that
    is.  Subtasks that call the group themselves are not modelled.

    The [sync.WaitGroup] is its counter: the panics of the library on a
    [g.wg.Add] that races with a blocked [g.wg.Wait] are not modelled, so
    that a run ends without a panic is stated for one client only. *)
Definition step_b (stalls : subtask -> bool -> bool) (i j : nat)
    (σ : config) : option config :=
  match threads σ !! i with
  | Some (Task_call f) =>
      if stalls f (ctx (g σ)) then None else step i j σ
  | _ => step i j σ
  end.

Fixpoint run_b (stalls : subtask -> bool -> bool) (sched : list (nat * nat))
    (σ : config) : option config :=
  match sched with
  | [] => Some σ
  | (i, j) :: rest =>
      match step_b stalls i j σ with
      | Some σ' => run_b stalls rest σ'
      | None => None
      end
  end.

(** Every subtask returns. *)
Definition returns_all : subtask -> bool -> bool := fun _ _ => false.

(** Every subtask waits for the cancellation of the context before it
    returns. *)
Definition waits_for_cancel : subtask -> bool -> bool :=
  fun _ cancelled => negb cancelled.

(** A subtask has been submitted and the caller is about to call
    [Wait]. *)
Definition stalled_wait : config :=
  Eval vm_compute in
    match run [(0,0); (0,0)] (init false [[CGo (const_task None); CWait]]) with
    | Some σ => σ
    | None => init false []
    end.

(** [two_failures] on a group whose parent context is cancelled, with
    both subtasks submitted. *)
Definition cancelled_two : config :=
  Eval vm_compute in
    match run [(0,0); (0,0); (0,0); (0,0)]
            (init true [[CGo (const_task (Some e1));
                         CGo (const_task (Some e2)); CWait]]) with
    | Some σ => σ
    | None => init true []
    end.

(** ** Lemmas *)

Example zero_group_single :
  option_map trace
    (run [(0,0); (0,0); (1,0); (1,0); (1,0); (1,0); (0,0); (0,0); (0,0)]
       (init false [[CGo (const_task (Some e1)); CWait]]))
  = Some [EvRet 0 OpWait (VErr (Some e1)); EvCancel 0; EvCancel 1;
          EvSetErr 1 e1; EvFail 1 e1; EvRet 0 OpGo VUnit;
          EvStart (const_task (Some e1))].
Proof. reflexivity. Qed.

(** [TestTryGo] with a limit of two: two attempts succeed, the third
    fails, and after one subtask has finished the next succeeds. *)
Example try_go_limit :
  option_map (fun σ => List.filter is_TryGo_ret (trace σ))
    (run [(0,0); (0,0); (0,0); (0,0); (0,0); (0,0);
          (1,0); (1,0); (1,0); (1,0); (1,0);
          (0,0); (0,0)]
       (init false [[CSetLimit 2; CTryGo (const_task None);
                     CTryGo (const_task None); CTryGo (const_task None);
                     CTryGo (const_task None)]]))
  = Some [EvRet 0 OpTryGo (VBool true); EvRet 0 OpTryGo (VBool false);
          EvRet 0 OpTryGo (VBool true); EvRet 0 OpTryGo (VBool true)].
Proof. reflexivity. Qed.

(** [ExampleGroup_parallel]: the parent context is cancelled while a
    search is running; the search returns the context's error and [Wait]
    reports it. *)
Example parallel_cancelled :
  option_map (fun σ => hd_error (trace σ))
    (run [(0,0); (0,0); (1,0); (2,0); (2,0); (2,0); (2,0);
          (0,0); (0,0); (0,0)]
       (init false
          [[CGo (fun cancelled =>
                   if cancelled then Some "context canceled"%string else None);
            CWait];
           [CParentCancel]]))
  = Some (Some (EvRet 0 OpWait (VErr (Some "context canceled"%string)))).
Proof. reflexivity. Qed.

(** Why a limit of zero closes the gate only for a group in which nobody
    is busy: [SetLimit(0)] does not see a subtask that was started while
    there was no limit ([len] of a nil channel is 0, so there is no panic);
    when that subtask ends, [done] finds the new channel and parks on it,
    and the next [TryGo] hands its token over to it and succeeds.  The
    comment of [SetLimit] rules such a call out: the limit must not be
    modified while any goroutines in the group are active. *)
Example busy_group_opens_gate :
  option_map (fun σ => (hd_error (trace σ), threads σ))
    (run [(0,0); (0,0); (0,0);
          (1,0); (1,0); (1,0); (1,0);
          (0,1); (0,0)]
       (init false [[CGo (const_task None); CSetLimit 0;
                     CTryGo (const_task None)]]))
  = Some (Some (EvRet 0 OpTryGo (VBool true)),
          [Client []; done_wg; Task_call (const_task None)]).
Proof. reflexivity. Qed.

Lemma sumf_app w l1 l2 : sumf w (l1 ++ l2) = sumf w l1 + sumf w l2.
Proof. induction l1 as [|p l1 IH]; simpl; [reflexivity | rewrite IH; lia]. Qed.

Lemma sumf_insert w (l : list pc) i p p' :
  l !! i = Some p -> sumf w (<[i := p']> l) + w p = sumf w l + w p'.
Proof.
  revert i. induction l as [|q l IH]; intros [|i] H; simpl in *; try discriminate.
  - inversion H; subst. lia.
  - specialize (IH i H). lia.
Qed.

Lemma sumf_lookup w (l : list pc) i p : l !! i = Some p -> w p <= sumf w l.
Proof.
  revert i. induction l as [|q l IH]; intros [|i] H; simpl in *; try discriminate.
  - inversion H; subst. lia.
  - specialize (IH i H). lia.
Qed.

Lemma sumf_map_Client w scripts :
  (forall k, w (Client k) = 0) -> sumf w (map Client scripts) = 0.
Proof.
  intros H. induction scripts as [|k l IH]; simpl; [reflexivity|].
  rewrite H, IH. reflexivity.
Qed.

(** What the two channel operations can answer. *)
Lemma chansend_Proceed c j σ σ' :
  chansend c j σ = Proceed σ' ->
  exists ch, chans σ !! c = Some ch /\
    ((existsb (parked_recv c) (threads σ) = true /\
      threads σ !! j = Some (done_parked c) /\ σ' = set_pc j done_wg σ) \/
     (existsb (parked_recv c) (threads σ) = false /\ len ch < cap ch /\
      σ' = set_chan c (Chan (cap ch) (S (len ch))) σ)).
Proof.
  unfold chansend. intros H.
  destruct (chans σ !! c) as [ch|]; [|discriminate]. exists ch. split; [reflexivity|].
  destruct (existsb (parked_recv c) (threads σ)).
  - destruct (threads σ !! j) as [[]|]; try discriminate.
    destruct (Nat.eqb_spec c c0); [|discriminate]. subst.
    inversion H. left. auto.
  - destruct (Nat.ltb_spec (len ch) (cap ch)); [|discriminate].
    inversion H. right. auto.
Qed.

Lemma chansend_WouldBlock c j σ :
  chansend c j σ = WouldBlock ->
  exists ch, chans σ !! c = Some ch /\
    existsb (parked_recv c) (threads σ) = false /\ cap ch <= len ch.
Proof.
  unfold chansend. intros H.
  destruct (chans σ !! c) as [ch|]; [|discriminate]. exists ch. split; [reflexivity|].
  destruct (existsb (parked_recv c) (threads σ)).
  - destruct (threads σ !! j) as [[]|]; try discriminate.
    destruct (c =? c0); discriminate.
  - destruct (Nat.ltb_spec (len ch) (cap ch)); [discriminate|]. auto.
Qed.

Lemma chanrecv_Proceed c j σ σ' :
  chanrecv c j σ = Proceed σ' ->
  exists ch, chans σ !! c = Some ch /\
    ((exists f k, existsb (parked_send c) (threads σ) = true /\
      threads σ !! j = Some (Go_parked c f k) /\
      σ' = set_pc j (Go_add f k) σ) \/
     (existsb (parked_send c) (threads σ) = false /\ 0 < len ch /\
      σ' = set_chan c (Chan (cap ch) (pred (len ch))) σ)).
Proof.
  unfold chanrecv. intros H.
  destruct (chans σ !! c) as [ch|]; [|discriminate]. exists ch. split; [reflexivity|].
  destruct (existsb (parked_send c) (threads σ)).
  - destruct (threads σ !! j) as [[]|]; try discriminate.
    destruct (Nat.eqb_spec c c0); [|discriminate]. subst.
    inversion H. left. eauto.
  - destruct (Nat.ltb_spec 0 (len ch)); [|discriminate].
    inversion H. right. auto.
Qed.

Lemma chanrecv_WouldBlock c j σ :
  chanrecv c j σ = WouldBlock ->
  exists ch, chans σ !! c = Some ch /\
    existsb (parked_send c) (threads σ) = false /\ len ch = 0.
Proof.
  unfold chanrecv. intros H.
  destruct (chans σ !! c) as [ch|]; [|discriminate]. exists ch. split; [reflexivity|].
  destruct (existsb (parked_send c) (threads σ)).
  - destruct (threads σ !! j) as [[]|]; try discriminate.
    destruct (c =? c0); discriminate.
  - destruct (Nat.ltb_spec 0 (len ch)); [discriminate|]. split; [reflexivity | lia].
Qed.

(** Inversion of one step: every way [step] can succeed. *)
Ltac break_step H :=
  repeat match type of H with
         | context [match ?x with _ => _ end] =>
             let E := fresh "E" in destruct x eqn:E; try discriminate H
         end;
  try (injection H as <-).

Ltac chan_inv :=
  repeat match goal with
  | H : chansend _ _ _ = Proceed _ |- _ =>
      apply chansend_Proceed in H;
      destruct H as (? & ? & [(? & ? & ->) | (? & ? & ->)])
  | H : chansend _ _ _ = WouldBlock |- _ =>
      apply chansend_WouldBlock in H; destruct H as (? & ? & ? & ?)
  | H : chanrecv _ _ _ = Proceed _ |- _ =>
      apply chanrecv_Proceed in H;
      destruct H as (? & ? & [(? & ? & ? & ? & ->) | (? & ? & ->)])
  | H : chanrecv _ _ _ = WouldBlock |- _ =>
      apply chanrecv_WouldBlock in H; destruct H as (? & ? & ? & ?)
  end.

Lemma SetLimit_Ok n g0 chans0 g' chans' :
  SetLimit n g0 chans0 = Ok (g', chans') ->
  ((n < 0)%Z /\ g' = set_sem None g0 /\ chans' = chans0) \/
  ((0 <= n)%Z /\ chan_len chans0 (sem g0) = 0 /\
   g' = set_sem (Some (length chans0)) g0 /\
   chans' = chans0 ++ [Chan (Z.to_nat n) 0]).
Proof.
  unfold SetLimit. intros H.
  destruct (Z.ltb_spec n 0).
  - inversion H. left. auto.
  - destruct (Nat.eqb_spec (chan_len chans0 (sem g0)) 0); simpl in H; [|discriminate].
    inversion H. right. auto.
Qed.

Lemma SetLimit_Panic n g0 chans0 :
  SetLimit n g0 chans0 = Panic <->
  (0 <= n)%Z /\ chan_len chans0 (sem g0) <> 0.
Proof.
  unfold SetLimit.
  destruct (Z.ltb_spec n 0).
  - split; [discriminate | lia].
  - destruct (Nat.eqb_spec (chan_len chans0 (sem g0)) 0); simpl.
    + split; [discriminate | tauto].
    + split; auto.
Qed.

Lemma record_wg e g0 : wg (record e g0) = wg g0.
Proof. destruct e; simpl; [|reflexivity]. unfold errOnce_Do. destruct (errOnce g0); reflexivity. Qed.

Lemma record_sem e g0 : sem (record e g0) = sem g0.
Proof. destruct e; simpl; [|reflexivity]. unfold errOnce_Do. destruct (errOnce g0); reflexivity. Qed.

Ltac setlimit_inv :=
  repeat match goal with
  | H : SetLimit _ _ _ = Ok (_, _) |- _ =>
      apply SetLimit_Ok in H;
      destruct H as [(? & -> & ->) | (? & ? & -> & ->)]
  | H : SetLimit _ _ _ = Panic |- _ =>
      apply SetLimit_Panic in H; destruct H as (? & ?)
  end.

Ltac step_inv H :=
  unfold step in H; break_step H; subst; chan_inv; setlimit_inv.

(** Facts about the weight of an updated pool, for [lia]. *)
Ltac ins_lookup :=
  lazymatch goal with
  | |- (<[_ := _]> _) !! _ = Some _ =>
      rewrite list_lookup_insert_ne; [ins_lookup | intros ->; congruence]
  | |- (_ ++ _) !! _ = Some _ => apply lookup_app_l_Some; ins_lookup
  | |- _ => eassumption
  end.

Ltac sumf_term w L :=
  lazymatch L with
  | <[?i := ?p']> ?l =>
      sumf_term w l;
      let Hl := fresh "Hl" in
      eassert (Hl : l !! i = Some _) by ins_lookup;
      pose proof (sumf_insert w l i _ p' Hl); clear Hl
  | ?l1 ++ ?l2 => pose proof (sumf_app w l1 l2); sumf_term w l1
  | _ => idtac
  end.

Ltac sumf_for w :=
  match goal with
  | |- context [sumf w (<[?i := ?p]> ?l)] => sumf_term w (<[i := p]> l)
  | |- context [sumf w (?l1 ++ ?l2)] => sumf_term w (l1 ++ l2)
  | |- context [sumf w _] => idtac
  end.

Ltac same_lookup :=
  repeat match goal with
  | H1 : ?a = Some _, H2 : ?a = Some _ |- _ =>
      rewrite H1 in H2; injection H2 as ?; subst
  end; simpl in *.

(** Reachable configurations. *)
Lemma run_app s1 s2 σ :
  run (s1 ++ s2) σ = match run s1 σ with Some σ' => run s2 σ' | None => None end.
Proof.
  revert σ. induction s1 as [|[i j] s1 IH]; intros σ; simpl; [reflexivity|].
  destruct (step i j σ); [apply IH | reflexivity].
Qed.

Lemma run_invariant (I : config -> Prop) :
  (forall i j σ σ', I σ -> step i j σ = Some σ' -> I σ') ->
  forall sched σ σ', I σ -> run sched σ = Some σ' -> I σ'.
Proof.
  intros Hstep sched. induction sched as [|[i j] s IH]; intros σ σ' HI H; simpl in H.
  - inversion H; subst; exact HI.
  - destruct (step i j σ) as [σ1|] eqn:E; [|discriminate].
    exact (IH _ _ (Hstep _ _ _ _ HI E) H).
Qed.

Lemma wg_inv_step i j σ σ' : wg_inv σ -> step i j σ = Some σ' -> wg_inv σ'.
Proof.
  unfold wg_inv. intros HI H. step_inv H; simpl in *.
  all: rewrite ?record_wg.
  all: sumf_for live; simpl in *; lia.
Qed.

Lemma err_inv_step i j σ σ' : err_inv σ -> step i j σ = Some σ' -> err_inv σ'.
Proof.
  unfold err_inv, failed. intros (He & Ho & Hn) H. step_inv H; simpl in *.
  all: try (rewrite He, Ho, Hn; destruct (first_failure (trace σ)); auto; fail).
  all: try (destruct (first_failure (trace σ)); auto; fail).
  destruct e as [m|]; simpl; [|auto].
  unfold errOnce_Do. rewrite Ho.
  destruct (first_failure (trace σ)) eqn:F; simpl; rewrite ?F; simpl; auto.
Qed.

Lemma ctx_inv_step pd i j σ σ' : ctx_inv pd σ -> step i j σ = Some σ' -> ctx_inv pd σ'.
Proof.
  unfold ctx_inv. intros Hc H. step_inv H; simpl in *; auto.
  all: try (rewrite orb_true_r; reflexivity).
  destruct e as [m|]; simpl; [|auto].
  unfold errOnce_Do. destruct (errOnce (g σ)); simpl; auto.
  rewrite orb_true_r; reflexivity.
Qed.

Lemma existsb_app_r {A} (f : A -> bool) l1 l2 :
  existsb f l2 = true -> existsb f (l1 ++ l2) = true.
Proof. intros H. rewrite existsb_app, H. apply orb_true_r. Qed.

Lemma cancel_inv_step i j σ σ' : cancel_inv σ -> step i j σ = Some σ' -> cancel_inv σ'.
Proof.
  unfold cancel_inv. intros Hc H. step_inv H; simpl in *.
  all: try reflexivity.
  all: sumf_for after_cancel; simpl in *; intros Hpos.
  all: try apply existsb_app_r; apply Hc; lia.
Qed.

Lemma hist_ok_step pd i j σ σ' :
  hist_inv pd σ -> step i j σ = Some σ' -> hist_ok pd (trace σ').
Proof.
  unfold hist_inv. intros (Hw & (He & Ho & Hn) & Hx & Hc & Hh) H.
  unfold ctx_inv, cancel_inv in *.
  step_inv H; simpl in *; auto.
  all: try (pose proof (sumf_lookup after_cancel _ _ _ E); simpl in * ).
  all: try (repeat split; auto; try congruence; try (apply Hc; lia); fail).
  destruct e as [m|]; simpl; auto.
  destruct (errOnce (g σ)); simpl; auto.
Qed.

Lemma hist_inv_step pd i j σ σ' :
  hist_inv pd σ -> step i j σ = Some σ' -> hist_inv pd σ'.
Proof.
  intros HI H. pose proof (hist_ok_step _ _ _ _ _ HI H).
  destruct HI as (Hw & He & Hx & Hc & Hh).
  repeat split; eauto using wg_inv_step, ctx_inv_step, cancel_inv_step.
  all: eapply err_inv_step; eauto.
Qed.

Lemma hist_inv_init pd scripts : hist_inv pd (init pd scripts).
Proof.
  unfold hist_inv, wg_inv, err_inv, ctx_inv, cancel_inv, failed; simpl.
  rewrite orb_false_r.
  rewrite !sumf_map_Client by reflexivity.
  repeat split; auto. lia.
Qed.

Lemma hist_inv_run pd scripts sched σ :
  run sched (init pd scripts) = Some σ -> hist_inv pd σ.
Proof.
  apply (run_invariant (hist_inv pd)); [|apply hist_inv_init].
  intros i j σ0 σ1. apply hist_inv_step.
Qed.

Ltac split_ifs :=
  repeat match goal with
  | H : context [if ?a =? ?b then _ else _] |- _ =>
      destruct (Nat.eqb_spec a b); subst
  | |- context [if ?a =? ?b then _ else _] =>
      destruct (Nat.eqb_spec a b); subst
  end.

Lemma Chan_len_eq K a b : a = b -> Some (Chan K a) = Some (Chan K b).
Proof. intros ->; reflexivity. Qed.

Lemma limit_calls_app tr1 tr2 :
  limit_calls (tr1 ++ tr2) = limit_calls tr1 + limit_calls tr2.
Proof. unfold limit_calls. rewrite List.filter_app, length_app. reflexivity. Qed.

Lemma limit_calls_record i e g0 : limit_calls (record_events i e g0) = 0.
Proof. destruct e; simpl; [|reflexivity]. destruct (errOnce g0); reflexivity. Qed.

Lemma limit_calls_step i j σ σ' :
  step i j σ = Some σ' -> limit_calls (trace σ) <= limit_calls (trace σ').
Proof.
  intros H. step_inv H; simpl; rewrite ?limit_calls_app, ?limit_calls_record;
    unfold limit_calls; simpl; lia.
Qed.

Lemma limit_calls_run sched σ σ' :
  run sched σ = Some σ' -> limit_calls (trace σ) <= limit_calls (trace σ').
Proof.
  revert σ. induction sched as [|[i j] s IH]; intros σ H; simpl in H.
  - inversion H; subst. lia.
  - destruct (step i j σ) as [σ1|] eqn:E; [|discriminate].
    apply limit_calls_step in E. apply IH in H. lia.
Qed.

(** The gate keeps its accounts as long as [SetLimit] is not called. *)
Lemma gate_inv_step c K i j σ σ' :
  gate_inv c K σ -> step i j σ = Some σ' ->
  limit_calls (trace σ') = limit_calls (trace σ) -> gate_inv c K σ'.
Proof.
  unfold gate_inv. intros (Hs & Hc & Hk & Hy) H.
  step_inv H; simpl in *; rewrite ?limit_calls_app, ?limit_calls_record;
    unfold limit_calls; simpl; intros Hl.
  all: pose proof (sumf_lookup (stray c) _ _ _ E) as Ly;
       pose proof (sumf_lookup holder _ _ _ E) as Lh;
       simpl in *.
  all: try match goal with
       | H1 : threads _ !! ?jj = Some ?q |- _ =>
           lazymatch q with done_parked _ => idtac | Go_parked _ _ _ => idtac end;
           pose proof (sumf_lookup (stray c) _ _ _ H1);
           pose proof (sumf_lookup holder _ _ _ H1); simpl in *
       end.
  all: try lia.
  all: try congruence.
  all: split_ifs; try lia.
  all: try match goal with
       | H1 : Some _ = Some _ |- _ => inversion H1; subst; clear H1
       end.
  all: same_lookup.
  all: split; [rewrite ?record_sem; assumption|].
  all: rewrite ?list_lookup_insert_eq by (eapply lookup_lt_Some; eassumption).
  all: sumf_for holder; sumf_for (stray c); simpl in *.
  all: rewrite ?E in *; simpl in *.
  all: split_ifs.
  all: split; [first [rewrite Hc | idtac]; apply Chan_len_eq; lia | lia].
Qed.

Lemma gate_inv_run c K sched σ σ' :
  gate_inv c K σ -> run sched σ = Some σ' ->
  limit_calls (trace σ') = limit_calls (trace σ) -> gate_inv c K σ'.
Proof.
  revert σ. induction sched as [|[i j] s IH]; intros σ HI H Hl; simpl in H.
  - inversion H; subst. exact HI.
  - destruct (step i j σ) as [σ1|] eqn:E; [|discriminate].
    pose proof (limit_calls_step _ _ _ _ E).
    pose proof (limit_calls_run _ _ _ H).
    apply (IH σ1); [|assumption|lia].
    eapply gate_inv_step; eauto. lia.
Qed.

Lemma sumf_le w1 w2 (l : list pc) :
  (forall p, w1 p <= w2 p) -> sumf w1 l <= sumf w2 l.
Proof.
  intros H. induction l as [|p l IH]; simpl; [lia|]. specialize (H p). lia.
Qed.

(** [SetLimit(K)] called while nobody is busy installs the gate. *)
Lemma gate_inv_SetLimit i j σ σ' (K : nat) k :
  threads σ !! i = Some (Client (CSetLimit (Z.of_nat K) :: k)) ->
  sumf busy (threads σ) = 0 ->
  chan_len (chans σ) (sem (g σ)) = 0 ->
  step i j σ = Some σ' ->
  gate_inv (length (chans σ)) K σ' /\
  trace σ' = EvRet i OpSetLimit VUnit :: trace σ /\
  threads σ' = <[i := Client k]> (threads σ) /\
  wg (g σ') = wg (g σ).
Proof.
  intros E Hb Hl H. unfold step in H. rewrite E in H.
  unfold SetLimit in H.
  destruct (Z.ltb_spec (Z.of_nat K) 0); [lia|].
  rewrite Hl in H. simpl in H. injection H as <-.
  unfold gate_inv; simpl. rewrite Nat2Z.id.
  assert (Hh : sumf holder (threads σ) = 0).
  { pose proof (sumf_le holder busy (threads σ)) as L.
    assert (forall p, holder p <= busy p) by (intros []; simpl; lia).
    specialize (L H). lia. }
  assert (Hy : sumf (stray (length (chans σ))) (threads σ) = 0).
  { pose proof (sumf_le (stray (length (chans σ))) busy (threads σ)) as L.
    assert (forall p, stray (length (chans σ)) p <= busy p).
    { intros []; simpl; try lia; destruct (_ =? _); lia. }
    specialize (L H). lia. }
  pose proof (sumf_insert holder _ _ _ (Client k) E).
  pose proof (sumf_insert (stray (length (chans σ))) _ _ _ (Client k) E).
  simpl in *.
  repeat split; auto; try lia.
  rewrite lookup_app_r by lia. rewrite Nat.sub_diag. simpl.
  apply Chan_len_eq. lia.
Qed.

Lemma zero_gate_step c i j σ σ' :
  gate_inv c 0 σ -> step i j σ = Some σ' ->
  limit_calls (trace σ') = limit_calls (trace σ) ->
  exists evs, trace σ' = evs ++ trace σ /\ Forall calm evs /\
    wg (g σ') <= wg (g σ) /\ length (threads σ') = length (threads σ).
Proof.
  unfold gate_inv. intros (Hs & Hc & Hk & Hy) H.
  step_inv H; simpl in *; rewrite ?limit_calls_app, ?limit_calls_record;
    unfold limit_calls; simpl; intros Hl.
  all: pose proof (sumf_lookup (stray c) _ _ _ E) as Ly;
       pose proof (sumf_lookup holder _ _ _ E) as Lh;
       simpl in *.
  all: try match goal with
       | H1 : threads _ !! ?jj = Some ?q |- _ =>
           lazymatch q with done_parked _ => idtac | Go_parked _ _ _ => idtac end;
           pose proof (sumf_lookup (stray c) _ _ _ H1);
           pose proof (sumf_lookup holder _ _ _ H1); simpl in *
       end.
  all: try lia.
  all: try congruence.
  all: split_ifs; try lia.
  all: try match goal with
       | H1 : Some _ = Some _ |- _ => inversion H1; subst; clear H1
       end.
  all: same_lookup; try lia.
  all: rewrite ?length_insert.
  all: try (exists []; simpl; repeat split; auto; lia).
  all: try (eexists [_]; simpl; repeat split; auto; repeat constructor; lia).
Qed.

Lemma zero_gate_run c sched σ σ' :
  gate_inv c 0 σ -> run sched σ = Some σ' ->
  limit_calls (trace σ') = limit_calls (trace σ) ->
  exists evs, trace σ' = evs ++ trace σ /\ Forall calm evs /\
    wg (g σ') <= wg (g σ) /\ length (threads σ') = length (threads σ).
Proof.
  revert σ. induction sched as [|[i j] s IH]; intros σ HI H Hl; simpl in H.
  - inversion H; subst. exists []. repeat split; auto.
  - destruct (step i j σ) as [σ1|] eqn:E; [|discriminate].
    pose proof (limit_calls_step _ _ _ _ E).
    pose proof (limit_calls_run _ _ _ H).
    assert (Hl1 : limit_calls (trace σ1) = limit_calls (trace σ)) by lia.
    destruct (zero_gate_step _ _ _ _ _ HI E Hl1) as (ev1 & T1 & C1 & W1 & L1).
    destruct (IH σ1) as (ev2 & T2 & C2 & W2 & L2);
      [eapply gate_inv_step; eauto | assumption | lia |].
    exists (ev2 ++ ev1). rewrite T2, T1, app_assoc.
    repeat split; try lia. apply Forall_app; auto.
Qed.

Lemma stray_zero_no_parked c (l : list pc) :
  sumf (stray c) l = 0 -> existsb (parked_recv c) l = false.
Proof.
  induction l as [|p l IH]; simpl; [reflexivity|].
  intros H. rewrite IH by lia. destruct p; simpl in *; try reflexivity. lia.
Qed.

Lemma set_pc_set_pc t p q σ : set_pc t p (set_pc t q σ) = set_pc t p σ.
Proof. unfold set_pc; simpl. rewrite list_insert_insert_eq. reflexivity. Qed.

(** A closed gate: [TryGo] fails at once, [Go] parks and stays parked. *)
Lemma zero_gate_TryGo c σ t f k j :
  gate_inv c 0 σ -> threads σ !! t = Some (Client (CTryGo f :: k)) ->
  step t j σ = Some (emit [EvRet t OpTryGo (VBool false)] (set_pc t (Client k) σ)).
Proof.
  intros (Hs & Hc & Hk & Hy) E. unfold step. rewrite E, Hs.
  unfold chansend. rewrite Hc, (stray_zero_no_parked _ _ Hy). simpl.
  reflexivity.
Qed.

Lemma zero_gate_Go c σ t f k a b :
  gate_inv c 0 σ -> threads σ !! t = Some (Client (CGo f :: k)) ->
  run [(t, a); (t, b)] σ = Some (set_pc t (Go_parked c f k) σ) /\
  forall d, step t d (set_pc t (Go_parked c f k) σ) = None.
Proof.
  intros HI E. pose proof HI as (Hs & Hc & Hk & Hy).
  pose proof (lookup_lt_Some _ _ _ E) as Lt.
  assert (S1 : step t a σ = Some (set_pc t (Go_send c f k) σ)).
  { unfold step. rewrite E, Hs. reflexivity. }
  assert (HI1 : gate_inv c 0 (set_pc t (Go_send c f k) σ)).
  { eapply gate_inv_step; eauto. }
  destruct HI1 as (Hs1 & Hc1 & Hk1 & Hy1).
  split.
  - simpl. rewrite S1. unfold step. simpl.
    rewrite list_lookup_insert_eq by assumption.
    unfold chansend. rewrite Hc1, (stray_zero_no_parked _ _ Hy1). simpl.
    rewrite set_pc_set_pc. reflexivity.
  - intros d. unfold step. simpl. rewrite list_lookup_insert_eq by assumption.
    reflexivity.
Qed.

Lemma hist_ok_app pd later earlier :
  hist_ok pd (later ++ earlier) -> hist_ok pd earlier.
Proof.
  induction later as [|ev l IH]; simpl; [auto|]. intros [_ H]. auto.
Qed.

Lemma probe_after_cancel pd later earlier t v :
  hist_ok pd (later ++ earlier) -> existsb is_cancel earlier = true ->
  In (EvRet t OpDone v) later -> v = VBool true.
Proof.
  intros H Hc. induction later as [|ev l IH]; simpl in *; [tauto|].
  destruct H as [Hev H]. intros [->|Hin]; [|auto].
  rewrite Hev, existsb_app, Hc, !orb_true_r. reflexivity.
Qed.

Lemma first_failure_none tr :
  (forall t m, ~ In (EvFail t m) tr) -> first_failure tr = None.
Proof.
  induction tr as [|ev tr IH]; simpl; [reflexivity|]. intros H.
  rewrite IH by (intros t m Hin; apply (H t m); auto).
  destruct ev; try reflexivity. exfalso. apply (H tid e). auto.
Qed.

Lemma first_failure_some tr m :
  first_failure tr = Some m -> exists t, In (EvFail t m) tr.
Proof.
  induction tr as [|ev tr IH]; simpl; [discriminate|].
  destruct (first_failure tr) as [m'|].
  - intros H. destruct (IH H) as [t Ht]. eauto.
  - destruct ev; try discriminate. intros H; inversion H; subst. eauto.
Qed.

Lemma first_failure_fail tr t m :
  In (EvFail t m) tr -> first_failure tr <> None.
Proof.
  induction tr as [|ev tr IH]; simpl; [tauto|].
  intros [->|H].
  - destruct (first_failure tr); discriminate.
  - specialize (IH H). destruct (first_failure tr); [discriminate | congruence].
Qed.

(** What a return of [Wait] or [Cancel] in the history says. *)
Lemma returned_after_cancel pd later earlier i o v :
  o = OpWait \/ o = OpCancel ->
  hist_ok pd (later ++ EvRet i o v :: earlier) ->
  v = VErr (first_failure earlier) /\
  existsb is_cancel earlier = true /\
  forall t v', In (EvRet t OpDone v') later -> v' = VBool true.
Proof.
  intros Ho H. pose proof (hist_ok_app _ _ _ H) as H1. simpl in H1.
  assert (v = VErr (first_failure earlier) /\ existsb is_cancel earlier = true)
    as [-> Hc] by (destruct Ho; subst; tauto).
  repeat split; auto. intros t v' Hin.
  eapply probe_after_cancel; eauto.
Qed.

Lemma Wait_runs σ i k j :
  threads σ !! i = Some (Client (CWait :: k)) -> wg (g σ) = 0 ->
  run [(i, j); (i, j); (i, j)] σ =
    Some (emit [EvRet i OpWait (VErr (err (g σ))); EvCancel i]
            (set_pc i (Client k) (set_g (cancel (g σ)) σ))).
Proof.
  intros E W. pose proof (lookup_lt_Some _ _ _ E) as Lt.
  simpl. unfold step at 1. rewrite E, W. simpl.
  unfold step at 1. simpl. rewrite list_lookup_insert_eq by assumption.
  unfold step at 1. simpl. rewrite list_lookup_insert_eq by (rewrite length_insert; assumption).
  unfold emit, set_pc, set_g; simpl. rewrite !list_insert_insert_eq. reflexivity.
Qed.

Lemma Cancel_runs σ i k j :
  threads σ !! i = Some (Cancel_wg k) -> wg (g σ) = 0 ->
  run [(i, j); (i, j)] σ =
    Some (emit [EvRet i OpCancel (VErr (err (g σ)))] (set_pc i (Client k) σ)).
Proof.
  intros E W. pose proof (lookup_lt_Some _ _ _ E) as Lt.
  simpl. unfold step at 1. rewrite E, W. simpl.
  unfold step at 1. simpl. rewrite list_lookup_insert_eq by assumption.
  unfold emit, set_pc, set_g; simpl. rewrite !list_insert_insert_eq. reflexivity.
Qed.

Lemma with_trace_id σ : with_trace (trace σ) σ = σ.
Proof. destruct σ; reflexivity. Qed.

Lemma chansend_trace c j σ t :
  chansend c j (with_trace t σ) =
  match chansend c j (with_trace [] σ) with
  | Proceed σ' => Proceed (with_trace (trace σ' ++ t) σ')
  | WouldBlock => WouldBlock
  | Stuck => Stuck
  end.
Proof.
  unfold chansend; simpl.
  destruct (chans σ !! c); [|reflexivity].
  destruct (existsb (parked_recv c) (threads σ)).
  - destruct (threads σ !! j) as [[]|]; try reflexivity.
    destruct (c =? c1); reflexivity.
  - destruct (len c0 <? cap c0); reflexivity.
Qed.

Lemma chanrecv_trace c j σ t :
  chanrecv c j (with_trace t σ) =
  match chanrecv c j (with_trace [] σ) with
  | Proceed σ' => Proceed (with_trace (trace σ' ++ t) σ')
  | WouldBlock => WouldBlock
  | Stuck => Stuck
  end.
Proof.
  unfold chanrecv; simpl.
  destruct (chans σ !! c); [|reflexivity].
  destruct (existsb (parked_send c) (threads σ)).
  - destruct (threads σ !! j) as [[]|]; try reflexivity.
    destruct (c =? c1); reflexivity.
  - destruct (0 <? len c0); reflexivity.
Qed.

Lemma step_trace i j σ t :
  step i j (with_trace t σ) =
  match step i j (with_trace [] σ) with
  | Some σ' => Some (with_trace (trace σ' ++ t) σ')
  | None => None
  end.
Proof.
  unfold step.
  change (threads (with_trace t σ)) with (threads σ).
  change (threads (with_trace [] σ)) with (threads σ).
  change (g (with_trace t σ)) with (g σ).
  change (g (with_trace [] σ)) with (g σ).
  change (chans (with_trace t σ)) with (chans σ).
  change (chans (with_trace [] σ)) with (chans σ).
  destruct (threads σ !! i) as [p|]; [|reflexivity].
  destruct p as [[|[] k]| | | | | | | | | | | | | | | |];
    try destruct (sem (g σ));
    rewrite ?(chansend_trace _ _ σ t), ?(chanrecv_trace _ _ σ t);
    try reflexivity.
  all: try match goal with
       | |- context [chansend ?c ?j (with_trace [] ?s)] =>
           destruct (chansend c j (with_trace [] s))
       | |- context [chanrecv ?c ?j (with_trace [] ?s)] =>
           destruct (chanrecv c j (with_trace [] s))
       end; try reflexivity.
  all: repeat (match goal with
          | |- context [match ?x with _ => _ end] => destruct x
          end; try reflexivity).
  all: unfold with_trace, emit, set_pc, set_g, go_func; simpl;
       rewrite ?app_nil_r; reflexivity.
Qed.

Lemma run_trace sched σ t :
  run sched (with_trace t σ) =
  match run sched (with_trace [] σ) with
  | Some σ' => Some (with_trace (trace σ' ++ t) σ')
  | None => None
  end.
Proof.
  revert σ t. induction sched as [|[i j] s IH]; intros σ t; simpl.
  - reflexivity.
  - rewrite (step_trace i j σ t).
    destruct (step i j (with_trace [] σ)) as [σ1|]; [|reflexivity].
    rewrite IH. pose proof (IH σ1 (trace σ1)) as R.
    rewrite with_trace_id in R. rewrite R.
    destruct (run s (with_trace [] σ1)) as [σ'|]; [|reflexivity].
    unfold with_trace; simpl. rewrite app_assoc. reflexivity.
Qed.

Lemma started_eq σ i p f k :
  i < length (threads σ) ->
  set_pc i (Client k) (go_func f (set_pc i p σ)) =
  set_pc i (Client k) (go_func f σ).
Proof.
  intros Lt. unfold set_pc, go_func; simpl. f_equal.
  rewrite !insert_app_l by (rewrite ?length_insert; assumption).
  rewrite list_insert_insert_eq. reflexivity.
Qed.

Lemma Go_unbounded σ i f k a b :
  threads σ !! i = Some (Client (CGo f :: k)) -> sem (g σ) = None ->
  run [(i, a); (i, b)] σ =
    Some (emit [EvRet i OpGo VUnit] (set_pc i (Client k) (go_func f σ))).
Proof.
  intros E Hs. pose proof (lookup_lt_Some _ _ _ E) as Lt.
  simpl. unfold step at 1. rewrite E, Hs.
  unfold step. simpl. rewrite list_lookup_insert_eq by assumption.
  rewrite <- (started_eq σ i (Go_add f k) f k Lt). reflexivity.
Qed.

Lemma TryGo_unbounded σ i f k a b :
  threads σ !! i = Some (Client (CTryGo f :: k)) -> sem (g σ) = None ->
  run [(i, a); (i, b)] σ =
    Some (emit [EvRet i OpTryGo (VBool true)]
            (set_pc i (Client k) (go_func f σ))).
Proof.
  intros E Hs. pose proof (lookup_lt_Some _ _ _ E) as Lt.
  simpl. unfold step at 1. rewrite E, Hs.
  unfold step. simpl. rewrite list_lookup_insert_eq by assumption.
  rewrite <- (started_eq σ i (TryGo_add f k) f k Lt). reflexivity.
Qed.

(** Two configurations that differ in their history only run alike. *)
Lemma run_alike sched σ t1 t2 :
  match run sched (with_trace t1 σ), run sched (with_trace t2 σ) with
  | Some x, Some y =>
      g x = g y /\ chans x = chans y /\ threads x = threads y /\
      exists evs, trace x = evs ++ t1 /\ trace y = evs ++ t2
  | None, None => True
  | _, _ => False
  end.
Proof.
  rewrite (run_trace sched σ t1), (run_trace sched σ t2).
  destruct (run sched (with_trace [] σ)) as [σ'|]; [|exact I].
  simpl. repeat split; eauto.
Qed.

Lemma admits_record i e g0 : Forall admits (record_events i e g0).
Proof.
  destruct e; simpl; [|constructor].
  destruct (errOnce g0); repeat constructor.
Qed.

Lemma nil_gate_step i j σ σ' :
  sem (g σ) = None -> step i j σ = Some σ' ->
  limit_calls (trace σ') = limit_calls (trace σ) ->
  sem (g σ') = None /\
  exists evs, trace σ' = evs ++ trace σ /\ Forall admits evs.
Proof.
  intros Hs H.
  step_inv H; simpl in *; rewrite ?limit_calls_app, ?limit_calls_record;
    unfold limit_calls; simpl; intros Hl.
  all: try lia.
  all: try congruence.
  all: rewrite ?record_sem.
  all: split; [assumption|].
  all: try (exists []; simpl; split; [reflexivity | constructor]; fail).
  all: try (eexists [_]; simpl; split; [reflexivity | repeat constructor]; fail).
  all: try (eexists [_; _]; simpl; split; [reflexivity | repeat constructor]; fail).
  eexists; split; [reflexivity | apply admits_record].
Qed.

Lemma nil_gate_run sched σ σ' :
  sem (g σ) = None -> run sched σ = Some σ' ->
  limit_calls (trace σ') = limit_calls (trace σ) ->
  sem (g σ') = None /\
  exists evs, trace σ' = evs ++ trace σ /\ Forall admits evs.
Proof.
  revert σ. induction sched as [|[i j] s IH]; intros σ Hs H Hl; simpl in H.
  - inversion H; subst. split; [assumption|]. exists []. split; auto.
  - destruct (step i j σ) as [σ1|] eqn:E; [|discriminate].
    pose proof (limit_calls_step _ _ _ _ E).
    pose proof (limit_calls_run _ _ _ H).
    assert (Hl1 : limit_calls (trace σ1) = limit_calls (trace σ)) by lia.
    destruct (nil_gate_step _ _ _ _ Hs E Hl1) as (Hs1 & ev1 & T1 & A1).
    destruct (IH σ1 Hs1 H) as (Hs' & ev2 & T2 & A2); [lia|].
    split; [assumption|].
    exists (ev2 ++ ev1). rewrite T2, T1, app_assoc.
    split; [reflexivity | apply Forall_app; auto].
Qed.

Lemma chansend_ctx c j σ b :
  chansend c j (with_ctx b σ) =
  match chansend c j σ with
  | Proceed σ' => Proceed (with_ctx b σ')
  | WouldBlock => WouldBlock
  | Stuck => Stuck
  end.
Proof.
  unfold chansend; simpl.
  destruct (chans σ !! c); [|reflexivity].
  destruct (existsb (parked_recv c) (threads σ)).
  - destruct (threads σ !! j) as [[]|]; try reflexivity.
    destruct (c =? c1); reflexivity.
  - destruct (len c0 <? cap c0); reflexivity.
Qed.

Lemma submit_ignores_ctx σ i j p b :
  threads σ !! i = Some p -> in_submit p ->
  step i j (with_ctx b σ) = option_map (with_ctx b) (step i j σ).
Proof.
  intros E Hp. unfold step.
  change (threads (with_ctx b σ)) with (threads σ).
  change (sem (g (with_ctx b σ))) with (sem (g σ)).
  rewrite E.
  destruct p as [[|[] k]| | | | | | | | | | | | | | | |]; simpl in Hp;
    try contradiction; try destruct (sem (g σ));
    rewrite ?chansend_ctx; try reflexivity.
  all: destruct (chansend _ _ σ); reflexivity.
Qed.

Lemma failed_cons ev tr : failed (ev :: tr) = failed tr || is_fail ev.
Proof.
  unfold failed; simpl. destruct (first_failure tr); [reflexivity|].
  destruct ev; reflexivity.
Qed.

Lemma failed_app l tr : failed (l ++ tr) = failed tr || existsb is_fail l.
Proof.
  induction l as [|ev l IH]; simpl; [rewrite orb_false_r; reflexivity|].
  rewrite failed_cons, IH.
  destruct (failed tr), (existsb is_fail l), (is_fail ev); reflexivity.
Qed.

(** If only goroutine [i] can carry the larger weight, nobody else
    carries the smaller. *)
Lemma sumf_only w1 w2 (l : list pc) i p :
  (forall q, w1 q <= w2 q) -> l !! i = Some p ->
  sumf w1 l + w2 p <= sumf w2 l + w1 p.
Proof.
  intros Hle. revert i. induction l as [|q l IH]; intros [|i] H; simpl in *;
    try discriminate.
  - inversion H; subst. pose proof (sumf_le w1 w2 l Hle). lia.
  - specialize (IH i H). specialize (Hle q). lia.
Qed.

Lemma sumf_plus w1 w2 (l : list pc) :
  sumf (fun p => w1 p + w2 p) l = sumf w1 l + sumf w2 l.
Proof. induction l as [|q l IH]; simpl; [reflexivity | rewrite IH; lia]. Qed.

Section SubmitAll.

Variable errs : list error.

Lemma prov_inv_step i j σ σ' :
  prov_inv errs σ -> step i j σ = Some σ' -> prov_inv errs σ'.
Proof.
  unfold prov_inv. intros (Hp & Hf) H.
  step_inv H; simpl in *.
  all: pose proof (Forall_lookup_1 _ _ _ _ Hp E) as Pi; simpl in Pi.
  all: try contradiction.
  all: try match goal with
       | H1 : threads _ !! ?jj = Some ?q |- _ =>
           lazymatch q with done_parked _ => idtac | Go_parked _ _ _ => idtac end;
           pose proof (Forall_lookup_1 _ _ _ _ Hp H1) as Pj; simpl in Pj
       end.
  all: split;
    [ repeat first [apply Forall_insert | apply Forall_app; split
                   | apply Forall_cons; split | apply Forall_nil];
      simpl; try tauto; try assumption
    | repeat first [apply Forall_cons; split | apply Forall_app; split];
      simpl; try tauto; try assumption ].
  - subst k. exact I.
  - destruct Pi as (e & He & ->). unfold const_task. intros m ->. exact He.
  - destruct e as [m|]; simpl; [|constructor].
    destruct (errOnce (g σ)); repeat constructor; simpl; auto.
Qed.

Lemma waiting_le_clients q : waiting q <= clients q.
Proof. destruct q; simpl; lia. Qed.

Lemma must_fail_le q : must_fail q <= live q + clients q.
Proof.
  destruct q; simpl; try lia;
    repeat match goal with
           | |- context [if ?b then _ else _] => destruct b
           | |- context [match ?e with _ => _ end] => destruct e
           end; lia.
Qed.

Lemma single_inv_step i j σ σ' :
  wg_inv σ -> prov_inv errs σ -> single_inv errs σ ->
  step i j σ = Some σ' -> single_inv errs σ'.
Proof.
  unfold wg_inv, prov_inv, single_inv.
  intros Hw (Hp & _) (Hc & Hq & Hm) H.
  step_inv H; simpl in *.
  all: pose proof (Forall_lookup_1 _ _ _ _ Hp E) as Pi; simpl in Pi.
  all: try contradiction.
  all: pose proof (sumf_lookup clients _ _ _ E) as Lc;
       pose proof (sumf_lookup waiting _ _ _ E) as Lq;
       pose proof (sumf_lookup live _ _ _ E) as Ll;
       pose proof (sumf_lookup must_fail _ _ _ E) as Lm; simpl in *.
  all: pose proof (sumf_only waiting clients _ _ _ waiting_le_clients E) as Lw;
       pose proof (sumf_only must_fail (fun q => live q + clients q) _ _ _
                     must_fail_le E) as Lf;
       rewrite sumf_plus in Lf; simpl in Lw, Lf.
  all: sumf_for clients; sumf_for waiting; sumf_for live; sumf_for must_fail;
       simpl in *.
  all: rewrite ?failed_cons, ?failed_app; simpl; rewrite ?orb_false_r.
  all: repeat match goal with
       | H : (_ =? _) = true |- _ => apply Nat.eqb_eq in H
       end.
  all: try match goal with
       | E : _ !! _ = Some (Task_call _) |- _ =>
           destruct Pi as (e0 & _ & ->); unfold failing, const_task in *;
           destruct e0
       | E : _ !! _ = Some (Task_once ?e) |- _ =>
           destruct e; simpl in *; destruct (errOnce (g σ)); simpl in *
       end.
  all: repeat match goal with
       | H : context [failing ?f] |- _ => destruct (failing f)
       | H : context [has_failing ?f] |- _ => destruct (has_failing f)
       end; simpl in *.
  all: split; [lia|]; split; [intros Hpos; lia|].
  all: intros Hex; destruct (Hm Hex) as [F|F];
       [left; rewrite F; reflexivity|].
  all: try (right; lia).
  all: try (left; rewrite ?orb_true_r; reflexivity).
  all: try (exfalso; lia).
Qed.

Lemma wait_ok_record i e g0 : Forall (wait_ok errs) (record_events i e g0).
Proof.
  destruct e; simpl; [|constructor].
  destruct (errOnce g0); repeat constructor.
Qed.

Lemma wait_ok_step pd i j σ σ' :
  submit_inv errs pd σ -> step i j σ = Some σ' ->
  Forall (wait_ok errs) (trace σ').
Proof.
  intros ((Hw & (He & Ho & _) & _) & (Hp & _) & (Hc & Hq & Hm) & Ht) H.
  unfold wg_inv in Hw.
  step_inv H; simpl in *; auto.
  all: try (apply Forall_cons; split; [exact I | auto]; fail).
  all: try (repeat (apply Forall_cons; split; [exact I|]); auto; fail).
  - pose proof (Forall_lookup_1 _ _ _ _ Hp E) as Pi; simpl in Pi. subst k.
    apply Forall_cons; split; [|assumption]. simpl. intros Hex.
    pose proof (sumf_lookup waiting _ _ _ E) as Lq.
    pose proof (sumf_only must_fail (fun q => live q + clients q) _ _ _
                  must_fail_le E) as Lf.
    rewrite sumf_plus in Lf. simpl in Lq, Lf.
    destruct (Hm Hex) as [F|F]; [|lia].
    rewrite He. unfold failed in F.
    destruct (first_failure (trace σ)); [discriminate | discriminate F].
  - apply Forall_app; split; [apply wait_ok_record | assumption].
Qed.

Lemma submit_inv_step pd i j σ σ' :
  submit_inv errs pd σ -> step i j σ = Some σ' -> submit_inv errs pd σ'.
Proof.
  intros HI H. pose proof (wait_ok_step _ _ _ _ _ HI H).
  destruct HI as (Hh & Hp & Hs & Ht).
  repeat split; try assumption.
  all: try (eapply hist_inv_step; eauto; fail).
  all: try (eapply prov_inv_step; eauto; fail).
  all: eapply single_inv_step; eauto; apply Hh.
Qed.

Lemma shape_submit l :
  (forall e, In e l -> In e errs) ->
  shape errs (map (fun e => CGo (const_task e)) l ++ [CWait]).
Proof.
  induction l as [|e l IH]; simpl; [reflexivity|]. intros H.
  split; [exists e; auto | apply IH; auto].
Qed.

Lemma has_failing_submit l m :
  In (Some m) l ->
  has_failing (map (fun e => CGo (const_task e)) l ++ [CWait]) = true.
Proof.
  unfold has_failing. induction l as [|e l IH]; simpl; [tauto|].
  intros [->|H]; [reflexivity|].
  rewrite IH by assumption. apply orb_true_r.
Qed.

Lemma submit_inv_init pd : submit_inv errs pd (init pd [submit_all errs]).
Proof.
  split; [apply hist_inv_init|]. split; [|split].
  - split; [|constructor]. repeat constructor. simpl.
    apply shape_submit. auto.
  - unfold single_inv; simpl. split; [lia|]. split; [lia|].
    intros [m Hm]. right. unfold submit_all.
    rewrite (has_failing_submit errs m Hm). lia.
  - constructor.
Qed.

Lemma submit_inv_run pd sched σ :
  run sched (init pd [submit_all errs]) = Some σ -> submit_inv errs pd σ.
Proof.
  apply (run_invariant (submit_inv errs pd)); [|apply submit_inv_init].
  intros i j σ0 σ1. apply submit_inv_step.
Qed.

End SubmitAll.

(** Without a limit a started subtask runs through to its end. *)
Lemma task_runs σ n f w :
  threads σ !! n = Some (Task_call f) -> sem (g σ) = None ->
  wg (g σ) = S w ->
  exists σ', run [(n,0); (n,0); (n,0); (n,0)] σ = Some σ' /\
    threads σ' = <[n := Exit]> (threads σ) /\
    sem (g σ') = None /\ wg (g σ') = w /\
    err (g σ') = err (record (f (ctx (g σ))) (g σ)) /\
    errOnce (g σ') = errOnce (record (f (ctx (g σ))) (g σ)).
Proof.
  intros E Hs Hw. pose proof (lookup_lt_Some _ _ _ E) as Lt.
  simpl. unfold step at 1. rewrite E.
  unfold step at 1. simpl. rewrite list_lookup_insert_eq by assumption.
  unfold step at 1. simpl.
  rewrite list_lookup_insert_eq by (rewrite length_insert; assumption).
  rewrite record_sem, Hs.
  unfold step at 1. simpl.
  rewrite list_lookup_insert_eq by (rewrite !length_insert; assumption).
  rewrite record_wg, Hw.
  eexists. split; [reflexivity|]. simpl.
  rewrite !list_insert_insert_eq, record_sem. auto.
Qed.

Lemma settled_step (g0 g2 : group) e l :
  (errOnce g0 = false -> err g0 = None) ->
  err g2 = err (record e g0) -> errOnce g2 = errOnce (record e g0) ->
  (errOnce g2 = false -> err g2 = None) /\
  settled g2 l = settled g0 (e :: l).
Proof.
  unfold settled, record, errOnce_Do. intros Hn -> ->.
  destruct e as [m|]; destruct (errOnce g0) eqn:Ho; simpl; rewrite ?Ho; auto.
  split; [discriminate | reflexivity].
Qed.

Lemma one_by_one_returns errs :
  forall σ, threads σ !! 0 = Some (Client (submit_all errs)) ->
    sem (g σ) = None -> wg (g σ) = 0 ->
    (errOnce (g σ) = false -> err (g σ) = None) ->
    exists σ' tr,
      run (one_by_one (length errs) (length (threads σ))) σ = Some σ' /\
      trace σ' = EvRet 0 OpWait (VErr (settled (g σ) errs)) :: tr.
Proof.
  induction errs as [|e l IH]; intros σ E Hs Hw Hn.
  - simpl. pose proof (Wait_runs σ 0 [] 0 E Hw) as R. simpl in R.
    rewrite R. unfold settled. simpl.
    destruct (errOnce (g σ)) eqn:Ho; [eauto|]. rewrite (Hn eq_refl). eauto.
  - pose proof (lookup_lt_Some _ _ _ E) as Lt.
    change (submit_all (e :: l))
      with (CGo (const_task e) :: submit_all l) in E.
    pose proof (Go_unbounded σ 0 (const_task e) (submit_all l) 0 0 E Hs) as R.
    set (σ1 := emit [EvRet 0 OpGo VUnit]
                 (set_pc 0 (Client (submit_all l)) (go_func (const_task e) σ)))
      in R.
    set (n := length (threads σ)).
    assert (Ln : threads σ1 !! n = Some (Task_call (const_task e))).
    { subst σ1 n. simpl. rewrite insert_app_l by assumption.
      rewrite lookup_app_r by (rewrite length_insert; lia).
      rewrite length_insert, Nat.sub_diag. reflexivity. }
    destruct (task_runs σ1 n (const_task e) 0 Ln)
      as (σ2 & R2 & T2 & S2 & W2 & He2 & Ho2).
    { exact Hs. }
    { subst σ1. simpl. rewrite Hw. reflexivity. }
    assert (E2 : threads σ2 !! 0 = Some (Client (submit_all l))).
    { rewrite T2. rewrite list_lookup_insert_ne by (subst n; lia).
      subst σ1. simpl. apply list_lookup_insert_eq.
      rewrite length_app. lia. }
    assert (L2 : length (threads σ2) = S n).
    { rewrite T2, length_insert. subst σ1 n. simpl.
      rewrite length_insert, length_app. simpl. lia. }
    destruct (settled_step (g σ) (g σ2) e l Hn) as (Hn2 & Hv).
    { rewrite He2. subst σ1. unfold const_task. simpl.
      destruct e; simpl; [|reflexivity].
      unfold errOnce_Do; simpl. destruct (errOnce (g σ)); reflexivity. }
    { rewrite Ho2. subst σ1. unfold const_task. simpl.
      destruct e; simpl; [|reflexivity].
      unfold errOnce_Do; simpl. destruct (errOnce (g σ)); reflexivity. }
    destruct (IH σ2 E2 S2 W2 Hn2) as (σ' & tr & R' & T').
    exists σ', tr. split; [|rewrite <- Hv; exact T'].
    simpl length. cbn [one_by_one].
    change ([(0, 0); (0, 0); (n, 0); (n, 0); (n, 0); (n, 0)] ++
            one_by_one (length l) (S n))
      with ([(0, 0); (0, 0)] ++ [(n, 0); (n, 0); (n, 0); (n, 0)] ++
            one_by_one (length l) (S n)).
    rewrite run_app, R, run_app, R2, <- L2. exact R'.
Qed.

(** ** The error that Wait returns *)

(** C1 fails as it stands: of two failing subtasks the one submitted
    second completes first, and [Wait] returns its error. *)
Lemma Wait_returns_second_error : ~ Wait_first_by_submission.
Proof.
  intros C.
  assert (C' : VErr (Some e2) = VErr (first_nonempty [Some e1; Some e2])).
  { eapply (C false [Some e1; Some e2] second_first _ []).
    - vm_compute; reflexivity.
    - reflexivity. }
  discriminate C'.
Qed.

(** C1, amended.  A client submits one subtask for each error of a list
    and then calls [Wait].  There is a run in which [Wait] returns: when
    every subtask has finished before the next one is submitted, [Wait]
    returns the first non-nil error in the order of submission.  In every
    interleaving the value that [Wait] returns is the error of the subtask
    that was the first to fail, in the order in which the subtasks
    completed; it is one of the submitted non-nil errors; and it is [nil]
    exactly when every submitted error is [nil]. *)
Theorem Wait_first_by_completion pd errs :
  (exists σ tr,
     run (one_by_one (length errs) 1) (init pd [submit_all errs]) = Some σ /\
     trace σ = EvRet 0 OpWait (VErr (first_nonempty errs)) :: tr) /\
  (forall sched σ later i v earlier,
     run sched (init pd [submit_all errs]) = Some σ ->
     trace σ = later ++ EvRet i OpWait v :: earlier ->
     v = VErr (first_failure earlier) /\
     (forall m, v = VErr (Some m) ->
        In (Some m) errs /\ exists t, In (EvFail t m) earlier) /\
     (v = VErr None <-> forall e, In e errs -> e = None)).
Proof.
  split.
  - exact (one_by_one_returns errs (init pd [submit_all errs])
             eq_refl eq_refl eq_refl (fun _ => eq_refl)).
  - intros sched σ later i v earlier H T.
    destruct (submit_inv_run errs pd sched σ H)
      as ((_ & _ & _ & _ & Hh) & (_ & Hf) & _ & Hw).
    rewrite T in Hh, Hf, Hw.
    destruct (returned_after_cancel pd later earlier i OpWait v)
      as (-> & _ & _); auto.
    apply Forall_app in Hf as [_ Hf]. apply Forall_app in Hw as [_ Hw].
    apply Forall_cons in Hf as [_ Hf]. apply Forall_cons in Hw as [Hw _].
    simpl in Hw.
    assert (Hin : forall m, first_failure earlier = Some m ->
                    In (Some m) errs /\ exists t, In (EvFail t m) earlier).
    { intros m Hm. destruct (first_failure_some _ _ Hm) as [t Ht].
      split; [|eauto].
      rewrite Forall_forall in Hf. apply (Hf (EvFail t m)).
      apply list_elem_of_In. exact Ht. }
    split; [reflexivity|]. split.
    + intros m [= Hm]. auto.
    + split.
      * intros Hv e He. destruct e as [m|]; [|reflexivity].
        exfalso. apply Hw; eauto.
      * intros Hall.
        destruct (first_failure earlier) as [m|] eqn:F; [|reflexivity].
        destruct (Hin m eq_refl) as [Hm _]. discriminate (Hall _ Hm).
Qed.

Lemma second_first_run : run second_first two_failures = Some second_first_end.
Proof. vm_compute. reflexivity. Qed.

(** In the run of [second_first] the error of the second subtask is
    returned. *)
Lemma Wait_first_by_completion_witness :
  trace second_first_end =
    [] ++ EvRet 0 OpWait (VErr (Some e2)) ::
      [EvCancel 0; EvFail 1 e1; EvCancel 2; EvSetErr 2 e2;
       EvFail 2 e2; EvRet 0 OpGo VUnit;
       EvStart (const_task (Some e2)); EvRet 0 OpGo VUnit;
       EvStart (const_task (Some e1))] /\
  In (Some e2) [Some e1; Some e2].
Proof.
  split; [reflexivity|].
  exact (proj1 (proj1 (proj2 (proj2 (Wait_first_by_completion false
           [Some e1; Some e2]) second_first second_first_end [] 0
           (VErr (Some e2)) _ second_first_run eq_refl)) e2 eq_refl)).
Defined.

(** ** First-error capture *)

(** C2.  In every run of a fresh group [g.err] is assigned at most once;
    [g.errOnce] is set exactly when it has been; and from then on no step
    changes [g.err], and a subtask that fails only reports its failure: it
    leaves the group as it is and does not call [g.cancel()]. *)
Theorem firstError_written_once pd scripts sched σ :
  run sched (init pd scripts) = Some σ ->
  length (List.filter is_set_err (trace σ)) <= 1 /\
  (errOnce (g σ) = true <-> length (List.filter is_set_err (trace σ)) = 1) /\
  (errOnce (g σ) = true ->
   forall i j σ', step i j σ = Some σ' ->
     err (g σ') = err (g σ) /\ errOnce (g σ') = true /\
     forall m, threads σ !! i = Some (Task_once (Some m)) ->
       σ' = emit [EvFail i m] (set_pc i done_sem σ)).
Proof.
  intros H. destruct (hist_inv_run _ _ _ _ H) as (_ & (He & Ho & Hn) & _).
  rewrite Hn, Ho. destruct (failed (trace σ)) eqn:F.
  - split; [lia|]. split; [tauto|]. intros _ i j σ' S.
    assert (Ho' : errOnce (g σ) = true) by congruence.
    split; [|split].
    + step_inv S; simpl; auto.
      destruct e; simpl; auto. unfold errOnce_Do. rewrite Ho'. reflexivity.
    + step_inv S; simpl; auto.
      destruct e; simpl; auto. unfold errOnce_Do. rewrite Ho'. assumption.
    + intros m E. unfold step in S. rewrite E in S. injection S as <-.
      unfold emit, set_pc, set_g, record, record_events, errOnce_Do; simpl.
      rewrite Ho'. destruct σ as [[] ? ? ?]; reflexivity.
  - split; [lia|]. split; [split; [discriminate | lia]|]. discriminate.
Qed.

(** Two subtasks fail; only the first failure is written. *)
Lemma firstError_written_once_witness :
  exists σ, run second_first two_failures = Some σ /\
    length (List.filter is_set_err (trace σ)) <= 1 /\
    err (g σ) = Some e2.
Proof.
  eexists. split; [vm_compute; reflexivity|].
  split; [|reflexivity].
  apply (firstError_written_once false
           [[CGo (const_task (Some e1)); CGo (const_task (Some e2)); CWait]]
           second_first).
  vm_compute; reflexivity.
Defined.

(** ** SetLimit while subtasks run *)

(** C3 fails as it stands: a subtask is running under a limit of one
    when [SetLimit(-1)] is called, and the call returns. *)
Lemma SetLimit_negative_while_running : ~ SetLimit_panics_whenever_running.
Proof.
  intros C.
  destruct (C false [[CSetLimit 1; CGo (const_task None); CSetLimit (-1)]]
              [(0,0); (0,0); (0,0); (0,0)] _ 0 (-1)%Z [] 0 eq_refl eq_refl)
    as (σ' & S & P).
  - vm_compute. lia.
  - vm_compute in S. injection S as <-. discriminate P.
Qed.

(** A subtask that was started while there was no limit takes, in its
    [done], the token of a subtask started under the limit that was set
    since: the second subtask is running, the gate is empty, and
    [SetLimit(3)] returns. *)
Example unseen_running_subtask :
  option_map (fun σ => (hd_error (trace σ), threads σ, chans σ))
    (run [(0,0); (0,0); (0,0); (0,0); (0,0); (0,0);
          (1,0); (1,0); (1,0); (1,0);
          (0,0)]
       (init false [[CGo (const_task None); CSetLimit 1;
                     CGo (const_task None); CSetLimit 3]]))
  = Some (Some (EvRet 0 OpSetLimit VUnit),
          [Client []; done_wg; Task_call (const_task None)],
          [Chan 1 0; Chan 3 0]).
Proof. reflexivity. Qed.

(** C3, amended.  A call [SetLimit(n)] panics exactly when [n >= 0] and
    the gate holds a token, [len(g.sem) != 0]; the panic leaves the group
    as it was.  With [n < 0] the call never panics: it returns and leaves
    the group without a gate.  When the limit in force was set while
    nobody was busy and [SetLimit] has not been called since, the gate
    holds one token for every goroutine that holds a slot, so it holds a
    token whenever a subtask is running. *)
Theorem SetLimit_panics_iff_gate_occupied σ i j n k :
  threads σ !! i = Some (Client (CSetLimit n :: k)) ->
  exists σ', step i j σ = Some σ' /\
    (threads σ' !! i = Some Panicked <->
     (0 <= n)%Z /\ chan_len (chans σ) (sem (g σ)) <> 0) /\
    (threads σ' !! i = Some Panicked -> g σ' = g σ /\ chans σ' = chans σ) /\
    ((n < 0)%Z -> threads σ' !! i = Some (Client k) /\ sem (g σ') = None) /\
    (forall σ0 i0 j0 (K : nat) k0 sched,
       threads σ0 !! i0 = Some (Client (CSetLimit (Z.of_nat K) :: k0)) ->
       sumf busy (threads σ0) = 0 ->
       chan_len (chans σ0) (sem (g σ0)) = 0 ->
       run ((i0, j0) :: sched) σ0 = Some σ ->
       limit_calls (trace σ) = S (limit_calls (trace σ0)) ->
       chan_len (chans σ) (sem (g σ)) = sumf holder (threads σ) /\
       (0 < sumf running (threads σ) ->
        chan_len (chans σ) (sem (g σ)) <> 0)).
Proof.
  intros E. pose proof (lookup_lt_Some _ _ _ E) as Lt.
  assert (G : forall σ0 i0 j0 (K : nat) k0 sched,
       threads σ0 !! i0 = Some (Client (CSetLimit (Z.of_nat K) :: k0)) ->
       sumf busy (threads σ0) = 0 ->
       chan_len (chans σ0) (sem (g σ0)) = 0 ->
       run ((i0, j0) :: sched) σ0 = Some σ ->
       limit_calls (trace σ) = S (limit_calls (trace σ0)) ->
       chan_len (chans σ) (sem (g σ)) = sumf holder (threads σ) /\
       (0 < sumf running (threads σ) ->
        chan_len (chans σ) (sem (g σ)) <> 0)).
  { intros σ0 i0 j0 K k0 sched E0 Hb Hl R Hn. simpl in R.
    destruct (step i0 j0 σ0) as [σ1|] eqn:S1; [|discriminate].
    destruct (gate_inv_SetLimit _ _ _ _ _ _ E0 Hb Hl S1) as (HI & T1 & _ & _).
    assert (HI' : gate_inv (length (chans σ0)) K σ).
    { eapply gate_inv_run; eauto. rewrite T1. unfold limit_calls in *.
      simpl. lia. }
    destruct HI' as (Hs & Hc & _ & _).
    assert (Hlen : chan_len (chans σ) (sem (g σ)) = sumf holder (threads σ)).
    { unfold chan_len. rewrite Hs, Hc. reflexivity. }
    split; [exact Hlen|]. intros Hr. rewrite Hlen.
    pose proof (sumf_le running holder (threads σ)) as L.
    assert (forall p, running p <= holder p) by (intros []; simpl; lia).
    specialize (L H). lia. }
  unfold step. rewrite E.
  destruct (SetLimit n (g σ) (chans σ)) as [[g' chans']|] eqn:S.
  - eexists. split; [reflexivity|]. simpl.
    rewrite list_lookup_insert_eq by assumption.
    split; [|split; [|split]].
    + split; [discriminate|]. intros HP. apply SetLimit_Panic in HP. congruence.
    + discriminate.
    + intros Hn. split; [reflexivity|].
      apply SetLimit_Ok in S. destruct S as [(_ & -> & _) | (Hp & _)];
        [reflexivity | lia].
    + exact G.
  - eexists. split; [reflexivity|]. simpl.
    rewrite list_lookup_insert_eq by assumption.
    split; [|split; [|split]].
    + apply SetLimit_Panic in S. tauto.
    + auto.
    + intros Hn. apply SetLimit_Panic in S. lia.
    + exact G.
Qed.

(** [SetLimit(2)] panics while the subtask holds its slot. *)
Lemma SetLimit_panics_iff_gate_occupied_witness :
  exists σ, run [(0,0); (0,0); (0,0); (0,0)] relimit = Some σ /\
    exists σ', step 0 0 σ = Some σ' /\ threads σ' !! 0 = Some Panicked.
Proof.
  eexists. split; [vm_compute; reflexivity|].
  match goal with
  | |- exists σ', step 0 0 ?s = _ /\ _ =>
      destruct (SetLimit_panics_iff_gate_occupied s 0 0 2 [] eq_refl)
        as (σ' & S & P & _)
  end.
  exists σ'. split; [exact S|]. apply P. split; [lia | discriminate].
Defined.

(** ** A limit of zero *)

(** C4 fails as it stands: a subtask that was started while there was no
    limit holds no slot when [SetLimit(0)] is called; its [done] parks on
    the new gate, and the next [TryGo] hands its token over to it instead
    of returning [false]. *)
Lemma TryGo_succeeds_under_zero_limit : ~ zero_limit_fails_every_TryGo.
Proof.
  intros C.
  pose proof (C false
                [[CGo (const_task None); CSetLimit 0; CTryGo (const_task None)]]
                [(0,0); (0,0)] _ 0 0 [CTryGo (const_task None)]
                [(1,0); (1,0); (1,0); (1,0)] _ 0 (const_task None) [] 1
                eq_refl eq_refl eq_refl eq_refl eq_refl eq_refl) as S.
  vm_compute in S. discriminate S.
Qed.

(** C4, amended.  After [SetLimit(0)], called while nobody was busy, and
    for as long as [SetLimit] is not called again: no subtask is started
    and the pending count does not grow, every [TryGo] returns [false] at
    once and leaves the group as it is, and every [Go] parks on the gate
    and has no step from there. *)
Theorem zero_limit_blocks σ0 i j k sched σ :
  threads σ0 !! i = Some (Client (CSetLimit 0 :: k)) ->
  sumf busy (threads σ0) = 0 ->
  chan_len (chans σ0) (sem (g σ0)) = 0 ->
  run ((i, j) :: sched) σ0 = Some σ ->
  limit_calls (trace σ) = S (limit_calls (trace σ0)) ->
  (exists evs, trace σ = evs ++ EvRet i OpSetLimit VUnit :: trace σ0 /\
     Forall calm evs) /\
  wg (g σ) <= wg (g σ0) /\
  length (threads σ) = length (threads σ0) /\
  (forall t f k' a, threads σ !! t = Some (Client (CTryGo f :: k')) ->
     step t a σ =
       Some (emit [EvRet t OpTryGo (VBool false)] (set_pc t (Client k') σ))) /\
  (forall t f k' a b, threads σ !! t = Some (Client (CGo f :: k')) ->
     exists c, run [(t, a); (t, b)] σ = Some (set_pc t (Go_parked c f k') σ) /\
       forall d, step t d (set_pc t (Go_parked c f k') σ) = None).
Proof.
  intros E Hb Hl H Hn. simpl in H.
  destruct (step i j σ0) as [σ1|] eqn:S1; [|discriminate].
  destruct (gate_inv_SetLimit _ _ _ _ 0 _ E Hb Hl S1) as (HI & T1 & Th1 & W1).
  assert (Hn1 : limit_calls (trace σ) = limit_calls (trace σ1)).
  { rewrite T1. unfold limit_calls in *. simpl. lia. }
  pose proof (gate_inv_run _ _ _ _ _ HI H Hn1) as HI'.
  destruct (zero_gate_run _ _ _ _ HI H Hn1) as (evs & T & C & W & L).
  split; [exists evs; rewrite T, T1; auto|].
  split; [lia|].
  split; [rewrite L, Th1; apply length_insert|].
  split.
  - intros t f k' a Et. eapply zero_gate_TryGo; eauto.
  - intros t f k' a b Et. eexists. eapply zero_gate_Go; eauto.
Qed.

(** Two [TryGo] fail and the [Go] parks. *)
Lemma zero_limit_blocks_witness :
  exists σ, run [(0,0); (0,0); (0,0); (0,0); (0,0)] zero_demo = Some σ /\
    trace σ = [EvRet 0 OpTryGo (VBool false); EvRet 0 OpTryGo (VBool false);
               EvRet 0 OpSetLimit VUnit] /\
    threads σ = [Go_parked 0 (const_task None) []] /\
    wg (g σ) <= 0.
Proof.
  eexists. split; [vm_compute; reflexivity|].
  split; [reflexivity|]. split; [reflexivity|].
  apply (zero_limit_blocks zero_demo 0 0
           [CTryGo (const_task None); CTryGo (const_task None);
            CGo (const_task None)]
           [(0,0); (0,0); (0,0); (0,0)]);
    [reflexivity | reflexivity | reflexivity | vm_compute; reflexivity
    | reflexivity].
Defined.

(** ** TryGo without a limit *)

(** C5.  Without a limit, [TryGo(f)] called where [Go(f)] could be called
    does what [Go(f)] does: it adds one to the pending count and starts
    the same goroutine; it returns [true]; and from there every schedule
    leads both groups through the same states (the same [g.err], the same
    cancellation), with the same events after the two returns. *)
Theorem TryGo_unbounded_as_Go σ i f k a b :
  sem (g σ) = None -> i < length (threads σ) ->
  let started := set_pc i (Client k) (go_func f σ) in
  run [(i, a); (i, b)] (set_pc i (Client (CGo f :: k)) σ) =
    Some (emit [EvRet i OpGo VUnit] started) /\
  run [(i, a); (i, b)] (set_pc i (Client (CTryGo f :: k)) σ) =
    Some (emit [EvRet i OpTryGo (VBool true)] started) /\
  wg (g started) = S (wg (g σ)) /\
  threads started = <[i := Client k]> (threads σ) ++ [Task_call f] /\
  forall sched,
    match run sched (emit [EvRet i OpGo VUnit] started),
          run sched (emit [EvRet i OpTryGo (VBool true)] started) with
    | Some x, Some y =>
        g x = g y /\ chans x = chans y /\ threads x = threads y /\
        exists evs,
          trace x = evs ++ EvRet i OpGo VUnit :: trace started /\
          trace y = evs ++ EvRet i OpTryGo (VBool true) :: trace started
    | None, None => True
    | _, _ => False
    end.
Proof.
  intros Hs Lt started.
  split; [|split; [|split; [|split]]].
  - rewrite (Go_unbounded _ i f k a b); simpl;
      [|apply list_lookup_insert_eq; assumption | assumption].
    rewrite started_eq by assumption. reflexivity.
  - rewrite (TryGo_unbounded _ i f k a b); simpl;
      [|apply list_lookup_insert_eq; assumption | assumption].
    rewrite started_eq by assumption. reflexivity.
  - reflexivity.
  - subst started. simpl. apply insert_app_l. assumption.
  - intros sched.
    exact (run_alike sched started (EvRet i OpGo VUnit :: trace started)
             (EvRet i OpTryGo (VBool true) :: trace started)).
Qed.

(** [TryGo] and [Go] on a fresh group. *)
Lemma TryGo_unbounded_as_Go_witness :
  run [(0,0); (0,0)] (init false [[CTryGo (const_task (Some e1))]]) =
    Some (emit [EvRet 0 OpTryGo (VBool true)]
            (set_pc 0 (Client [])
               (go_func (const_task (Some e1)) (init false [[]])))).
Proof.
  exact (proj1 (proj2 (TryGo_unbounded_as_Go (init false [[]]) 0
                         (const_task (Some e1)) [] 0 0 eq_refl
                         (Nat.lt_0_succ 0)))).
Defined.

(** ** Wait *)

(** C6.  In every run of a fresh group: a call of [Wait] has no step
    while the pending count is not zero; once it is zero the call cancels
    the context and returns [g.err]; the value a [Wait] returned is the
    error of the first subtask that had failed until then, [nil] if none
    had; and every non-blocking read of [Done()] after that return finds
    the signal fired. *)
Theorem Wait_contract pd scripts sched σ :
  run sched (init pd scripts) = Some σ ->
  (forall i k j, threads σ !! i = Some (Client (CWait :: k)) ->
     (wg (g σ) <> 0 -> step i j σ = None) /\
     (wg (g σ) = 0 ->
      run [(i, j); (i, j); (i, j)] σ =
        Some (emit [EvRet i OpWait (VErr (err (g σ))); EvCancel i]
                (set_pc i (Client k) (set_g (cancel (g σ)) σ))))) /\
  (forall later i v earlier,
     trace σ = later ++ EvRet i OpWait v :: earlier ->
     v = VErr (first_failure earlier) /\
     existsb is_cancel earlier = true /\
     (forall t v', In (EvRet t OpDone v') later -> v' = VBool true) /\
     ((forall t m, ~ In (EvFail t m) earlier) -> v = VErr None)).
Proof.
  intros H. destruct (hist_inv_run _ _ _ _ H) as (_ & _ & _ & _ & Hh).
  split.
  - intros i k j E. split.
    + intros W. unfold step. rewrite E.
      destruct (Nat.eqb_spec (wg (g σ)) 0); [contradiction | reflexivity].
    + apply Wait_runs; assumption.
  - intros later i v earlier T. rewrite T in Hh.
    destruct (returned_after_cancel pd later earlier i OpWait v) as (-> & Hc & Hp);
      auto.
    repeat split; auto.
    intros Hn. rewrite first_failure_none; auto.
Qed.

Lemma with_context_run :
  run with_context_sched with_context = Some with_context_end.
Proof. vm_compute. reflexivity. Qed.

(** [Wait] returns [nil], and [Done] is found fired after it. *)
Lemma Wait_contract_witness :
  trace with_context_end =
    [EvRet 0 OpDone (VBool true)] ++
      EvRet 0 OpWait (VErr None) ::
      [EvCancel 0; EvRet 0 OpGo VUnit; EvStart (const_task None)] /\
  VErr None = VErr (first_failure
                [EvCancel 0; EvRet 0 OpGo VUnit; EvStart (const_task None)]) /\
  forall t v', In (EvRet t OpDone v') [EvRet 0 OpDone (VBool true)] ->
               v' = VBool true.
Proof.
  split; [reflexivity|].
  destruct (proj2 (Wait_contract false [[CGo (const_task None); CWait; CDone]]
                     with_context_sched with_context_end with_context_run)
              [EvRet 0 OpDone (VBool true)] 0 (VErr None)
              [EvCancel 0; EvRet 0 OpGo VUnit; EvStart (const_task None)]
              eq_refl)
    as (Hv & _ & Hd & _).
  split; [exact Hv | exact Hd].
Defined.

(** ** Cancel *)

(** C7 fails as it stands: no subtask has failed when [Cancel] is
    called, the pending subtask fails while [Cancel] waits for it, and
    [Cancel] returns its error. *)
Lemma Cancel_returns_later_failure :
  ~ Cancel_nil_if_called_before_failure.
Proof.
  intros C.
  assert (C' : VErr (Some e1) = VErr None).
  { eapply (C false [[CGo (const_task (Some e1)); CCancel]] [(0,0); (0,0)]
              _ 0 [] [(0,0); (1,0); (1,0); (1,0); (1,0); (0,0); (0,0)]
              _ [EvCancel 1; EvSetErr 1 e1; EvFail 1 e1; EvCancel 0]).
    - vm_compute; reflexivity.
    - reflexivity.
    - intros t m [F|[F|F]]; try discriminate F; destruct F.
    - vm_compute; reflexivity.
    - reflexivity.
    - intros v' [F|[F|[F|[F|F]]]]; try discriminate F; destruct F. }
  discriminate C'.
Qed.

(** C7, amended.  In every run of a fresh group: a call of [Cancel]
    cancels the context at once, whatever the pending count; it then has
    no step while the pending count is not zero, and returns [g.err] once
    it is; no step inside [Cancel] changes [g.err] or [g.errOnce]; the
    value a [Cancel] returned is the error of the first failure that was
    captured before the return, so it is [nil] exactly when no failure
    was captured until then, whenever [Cancel] was called; and a later
    read of [Done()] finds the signal fired. *)
Theorem Cancel_contract pd scripts sched σ :
  run sched (init pd scripts) = Some σ ->
  (forall i k j, threads σ !! i = Some (Client (CCancel :: k)) ->
     step i j σ =
       Some (emit [EvCancel i] (set_pc i (Cancel_wg k) (set_g (cancel (g σ)) σ)))) /\
  (forall i k j, threads σ !! i = Some (Cancel_wg k) ->
     (wg (g σ) <> 0 -> step i j σ = None) /\
     (wg (g σ) = 0 ->
      run [(i, j); (i, j)] σ =
        Some (emit [EvRet i OpCancel (VErr (err (g σ)))]
                (set_pc i (Client k) σ)))) /\
  (forall i j p σ', threads σ !! i = Some p -> in_Cancel p ->
     step i j σ = Some σ' ->
     err (g σ') = err (g σ) /\ errOnce (g σ') = errOnce (g σ)) /\
  (forall later i v earlier,
     trace σ = later ++ EvRet i OpCancel v :: earlier ->
     v = VErr (first_failure earlier) /\
     existsb is_cancel earlier = true /\
     (forall t v', In (EvRet t OpDone v') later -> v' = VBool true) /\
     (v = VErr None <-> forall t m, ~ In (EvFail t m) earlier)).
Proof.
  intros H. destruct (hist_inv_run _ _ _ _ H) as (_ & _ & _ & _ & Hh).
  split; [|split; [|split]].
  - intros i k j E. unfold step. rewrite E. reflexivity.
  - intros i k j E. split.
    + intros W. unfold step. rewrite E.
      destruct (Nat.eqb_spec (wg (g σ)) 0); [contradiction | reflexivity].
    + apply Cancel_runs; assumption.
  - intros i j p σ' E Hp S. unfold step in S. rewrite E in S.
    destruct p as [[|[] ?]| | | | | | | | | | | | | | | |]; simpl in Hp;
      try contradiction.
    + injection S as <-. auto.
    + destruct (wg (g σ) =? 0); [|discriminate]. injection S as <-. auto.
    + injection S as <-. auto.
  - intros later i v earlier T. rewrite T in Hh.
    destruct (returned_after_cancel pd later earlier i OpCancel v) as (-> & Hc & Hp);
      auto.
    repeat split; auto.
    + intros Hv t m Hin. injection Hv as Hv.
      exact (first_failure_fail _ _ _ Hin Hv).
    + intros Hn. rewrite first_failure_none; auto.
Qed.

(** [Cancel] with nothing pending and nothing failed. *)
Lemma Cancel_contract_witness :
  exists σ, run [(0,0); (0,0); (0,0); (0,0)]
              (init false [[CCancel; CDone]]) = Some σ /\
    trace σ = [EvRet 0 OpDone (VBool true)] ++
              EvRet 0 OpCancel (VErr None) :: [EvCancel 0] /\
    VErr None = VErr (first_failure [EvCancel 0]).
Proof.
  eexists. split; [vm_compute; reflexivity|].
  split; [reflexivity|].
  exact (proj1 (proj2 (proj2 (proj2
            (Cancel_contract false [[CCancel; CDone]]
               [(0,0); (0,0); (0,0); (0,0)] _ eq_refl)))
            [EvRet 0 OpDone (VBool true)] 0 (VErr None) [EvCancel 0] eq_refl)).
Defined.

(** ** Removing the limit *)



(** ** Bounded concurrency *)



(** ** Submission after cancellation *)

(** C10.  A step of [Go] or [TryGo] is the same step whether the context
    is cancelled or not.  In particular a submission to a cancelled group
    without a limit starts its subtask; the subtask is called with the
    cancelled context; and if it fails and no error was recorded before,
    its error becomes [g.err]. *)
Theorem submission_ignores_cancellation σ i p :
  threads σ !! i = Some p -> in_submit p ->
  (forall j b, step i j (with_ctx b σ) = option_map (with_ctx b) (step i j σ)) /\
  (forall f k m o v,
     (p = Client (CGo f :: k) /\ o = OpGo /\ v = VUnit) \/
     (p = Client (CTryGo f :: k) /\ o = OpTryGo /\ v = VBool true) ->
     ctx (g σ) = true -> sem (g σ) = None -> errOnce (g σ) = false ->
     f true = Some m ->
     let n := length (threads σ) in
     exists σ', run [(i, 0); (i, 0); (n, 0); (n, 0)] σ = Some σ' /\
       threads σ' = <[i := Client k]> (threads σ) ++ [done_sem] /\
       err (g σ') = Some m /\ errOnce (g σ') = true /\
       trace σ' = EvCancel n :: EvSetErr n m :: EvFail n m :: EvRet i o v
                    :: EvStart f :: trace σ).
Proof.
  intros E Hp. split.
  - intros j b. eapply submit_ignores_ctx; eauto.
  - intros f k m o v Hc Hx Hs Ho Hf n.
    pose proof (lookup_lt_Some _ _ _ E) as Lt.
    assert (R : run [(i, 0); (i, 0)] σ =
                Some (emit [EvRet i o v] (set_pc i (Client k) (go_func f σ)))).
    { destruct Hc as [(-> & -> & ->)|(-> & -> & ->)];
        [apply Go_unbounded | apply TryGo_unbounded]; assumption. }
    change [(i, 0); (i, 0); (n, 0); (n, 0)]
      with ([(i, 0); (i, 0)] ++ [(n, 0); (n, 0)]).
    rewrite run_app, R.
    assert (Ln : (<[i := Client k]> (threads σ ++ [Task_call f])) !! n
                 = Some (Task_call f)).
    { subst n. rewrite insert_app_l by assumption.
      rewrite lookup_app_r by (rewrite length_insert; lia).
      rewrite length_insert, Nat.sub_diag. reflexivity. }
    assert (Ln' : n < length (<[i := Client k]> (threads σ ++ [Task_call f]))).
    { eapply lookup_lt_Some; eauto. }
    simpl. unfold step at 1. simpl. rewrite Ln. simpl.
    unfold step at 1. simpl.
    rewrite list_lookup_insert_eq by assumption.
    rewrite Hx, Hf. simpl. unfold errOnce_Do; simpl. rewrite Ho. simpl.
    eexists. split; [reflexivity|]. simpl.
    repeat split; auto.
    rewrite list_insert_insert_eq. rewrite insert_app_l by assumption.
    subst n. rewrite <- (length_insert (threads σ) i (Client k)).
    rewrite insert_app_r_alt by lia. rewrite Nat.sub_diag. reflexivity.
Qed.

(** The subtask sees the cancelled context and its error is recorded. *)
Lemma submission_ignores_cancellation_witness :
  run [(0,0); (0,0); (0,0)] late_submit = Some late_cancelled /\
  ctx (g late_cancelled) = true /\
  exists σ', run [(0,0); (0,0); (1,0); (1,0)] late_cancelled = Some σ' /\
    err (g σ') = Some e1.
Proof.
  split; [vm_compute; reflexivity|].
  split; [reflexivity|].
  destruct (proj2 (submission_ignores_cancellation late_cancelled 0 _ eq_refl I)
              (fun cancelled => if cancelled then Some e1 else None) []
              e1 OpGo VUnit
              (or_introl (conj eq_refl (conj eq_refl eq_refl)))
              eq_refl eq_refl eq_refl eq_refl)
    as (σ' & R & _ & He & _).
  exists σ'. split; [exact R | exact He].
Defined.

(** ** The pending count *)

Lemma filter_record_panic i e g0 :
  List.filter is_limit_panic (record_events i e g0) = [].
Proof. destruct e; simpl; [|reflexivity]. destruct (errOnce g0); reflexivity. Qed.

Lemma pending_inv_step i j σ σ' :
  pending_inv σ -> step i j σ = Some σ' -> pending_inv σ'.
Proof.
  unfold pending_inv. intros (Hw & Hp) H.
  split; [eapply wg_inv_step; eauto|].
  step_inv H; simpl in *.
  all: rewrite ?List.filter_app, ?filter_record_panic; simpl.
  all: pose proof (sumf_lookup live _ _ _ E) as Ll; simpl in Ll.
  all: sumf_for panicked; simpl in *.
  all: lia.
Qed.

Lemma pending_inv_run pd scripts sched σ :
  run sched (init pd scripts) = Some σ -> pending_inv σ.
Proof.
  apply (run_invariant pending_inv); [intros i j a b; apply pending_inv_step|].
  unfold pending_inv; simpl.
  rewrite !sumf_map_Client by reflexivity. auto.
Qed.

(** X1.  In every run of a fresh group the pending count is the number of
    goroutines started by [Go] and [TryGo] that have not yet run
    [g.wg.Done()].  So [g.wg.Done()] never takes the counter below zero:
    [done] always finds it positive and ends its goroutine. *)
Theorem pending_counts_live pd scripts sched σ :
  run sched (init pd scripts) = Some σ ->
  wg (g σ) = sumf live (threads σ) /\
  (forall i j, threads σ !! i = Some done_wg ->
     exists n, wg (g σ) = S n /\
       step i j σ = Some (set_pc i Exit (set_g (set_wg n (g σ)) σ))).
Proof.
  intros H. destruct (pending_inv_run _ _ _ _ H) as (Hw & _).
  split; [exact Hw|].
  intros i j E. pose proof (sumf_lookup live _ _ _ E) as Ll. simpl in Ll.
  destruct (wg (g σ)) as [|n] eqn:W; [lia|].
  exists n. split; [reflexivity|]. unfold step. rewrite E, W. reflexivity.
Qed.

(** In [limit_demo] two goroutines are still live. *)
Lemma pending_counts_live_witness :
  exists σ, run ((0,0) :: limit_demo_sched) limit_demo = Some σ /\
    wg (g σ) = sumf live (threads σ) /\ wg (g σ) = 2.
Proof.
  eexists. split; [vm_compute; reflexivity|]. split; [|reflexivity].
  apply (pending_counts_live false
           [[CSetLimit 1; CGo (const_task None); CGo (const_task None); CWait]]
           ((0,0) :: limit_demo_sched)).
  vm_compute; reflexivity.
Defined.

(** X2.  [Wait] and [Cancel] get past [g.wg.Wait()] only in a state in
    which no goroutine started by [Go] or [TryGo] is left: every subtask
    that was started has returned and has released its slot. *)
Theorem Wait_passes_when_all_done pd scripts sched σ i j p k σ' :
  run sched (init pd scripts) = Some σ ->
  threads σ !! i = Some p ->
  p = Client (CWait :: k) \/ p = Cancel_wg k ->
  step i j σ = Some σ' ->
  sumf live (threads σ) = 0 /\
  forall t q, threads σ !! t = Some q -> live q = 0.
Proof.
  intros H E Hp S. destruct (pending_inv_run _ _ _ _ H) as (Hw & _).
  assert (W : wg (g σ) = 0).
  { unfold step in S. rewrite E in S.
    destruct Hp as [-> | ->];
      destruct (Nat.eqb_spec (wg (g σ)) 0); try discriminate; assumption. }
  assert (L : sumf live (threads σ) = 0) by lia.
  split; [exact L|].
  intros t q Et. pose proof (sumf_lookup live _ _ _ Et). lia.
Qed.

(** In [with_context] the [Wait] passes when the subtask has exited. *)
Lemma Wait_passes_when_all_done_witness :
  exists σ σ', run [(0,0); (0,0); (1,0); (1,0); (1,0); (1,0)] with_context
                 = Some σ /\
    step 0 0 σ = Some σ' /\ threads σ !! 1 = Some Exit /\
    sumf live (threads σ) = 0.
Proof.
  eexists. eexists. split; [vm_compute; reflexivity|].
  split; [vm_compute; reflexivity|]. split; [reflexivity|].
  eapply (Wait_passes_when_all_done false
            [[CGo (const_task None); CWait; CDone]]
            [(0,0); (0,0); (1,0); (1,0); (1,0); (1,0)] _ 0 0 _ [CDone]).
  - vm_compute; reflexivity.
  - reflexivity.
  - left; reflexivity.
  - vm_compute; reflexivity.
Defined.

(** ** Cancellation *)

Lemma ctx_step i j σ σ' :
  step i j σ = Some σ' -> ctx (g σ) = true -> ctx (g σ') = true.
Proof.
  intros H Hc. step_inv H; simpl; auto.
  destruct e; simpl; auto. unfold errOnce_Do.
  destruct (errOnce (g σ)); auto.
Qed.

(** X3.  Cancellation is permanent: no step of any goroutine resets a
    cancelled context, and in every run of a fresh group, once a
    non-blocking read of [Done()] has found the signal fired, every later
    read finds it fired. *)
Theorem cancellation_is_permanent :
  (forall sched σ σ', run sched σ = Some σ' ->
     ctx (g σ) = true -> ctx (g σ') = true) /\
  (forall pd scripts sched σ later t earlier,
     run sched (init pd scripts) = Some σ ->
     trace σ = later ++ EvRet t OpDone (VBool true) :: earlier ->
     forall t' v, In (EvRet t' OpDone v) later -> v = VBool true).
Proof.
  split.
  - intros sched σ σ' H Hc. revert H.
    apply (run_invariant (fun s => ctx (g s) = true)); [|exact Hc].
    intros i j a b Ha S. eapply ctx_step; eauto.
  - intros pd scripts sched σ later t earlier H T t' v Hin.
    destruct (hist_inv_run _ _ _ _ H) as (_ & _ & _ & _ & Hh).
    rewrite T in Hh. clear T H.
    pose proof (hist_ok_app _ _ _ Hh) as H1. simpl in H1.
    destruct H1 as [Hv _]. injection Hv as Hv.
    induction later as [|ev l IH]; simpl in *; [tauto|].
    destruct Hh as [Hev Hh]. destruct Hin as [->|Hin]; [|auto].
    rewrite Hev. f_equal. rewrite existsb_app. simpl.
    destruct pd; [reflexivity|]. simpl in Hv. rewrite <- Hv.
    rewrite !orb_true_r. reflexivity.
Qed.

(** The group of [late_submit] stays cancelled after its [Wait], while the
    late subtask runs. *)
Lemma cancellation_is_permanent_witness :
  exists σ', run [(0,0); (0,0); (1,0)] late_cancelled = Some σ' /\
    ctx (g late_cancelled) = true /\ ctx (g σ') = true.
Proof.
  eexists. split; [vm_compute; reflexivity|]. split; [reflexivity|].
  apply (proj1 cancellation_is_permanent [(0,0); (0,0); (1,0)] late_cancelled);
    [vm_compute; reflexivity | reflexivity].
Defined.

Lemma capture_inv_step i j σ σ' :
  capture_inv σ -> step i j σ = Some σ' -> capture_inv σ'.
Proof.
  unfold capture_inv. intros Hc H.
  step_inv H; simpl in *; auto.
  destruct e as [m|]; simpl; [|auto].
  unfold errOnce_Do. destruct (errOnce (g σ)) eqn:O; simpl; auto.
Qed.

Lemma capture_inv_run pd scripts sched σ :
  run sched (init pd scripts) = Some σ -> capture_inv σ.
Proof.
  apply (run_invariant capture_inv).
  - intros i j a b. apply capture_inv_step.
  - unfold capture_inv. simpl. discriminate.
Qed.

(** Between the return of the subtask and its capture the context is
    not yet cancelled: a read of [Done()] made after [f] has returned
    [e1] and before its goroutine has reached [g.errOnce.Do] finds the
    signal not fired. *)
Example Done_before_capture :
  option_map (fun σ => (hd_error (trace σ), threads σ))
    (run [(0,0); (0,0); (1,0); (0,0)]
       (init false [[CGo (const_task (Some e1)); CDone]]))
  = Some (Some (EvRet 0 OpDone (VBool false)),
          [Client []; Task_once (Some e1)]).
Proof. reflexivity. Qed.

(** X4.  The capture of the first failure cancels the group's context.
    In every run of a fresh group, once [g.errOnce] has run, [g.err] is
    not [nil] and the context is cancelled; and a read of [Done()] made
    after [g.cancel()] has been called finds the signal fired. *)
Theorem failure_cancels_context pd scripts sched σ :
  run sched (init pd scripts) = Some σ ->
  (errOnce (g σ) = true -> err (g σ) <> None /\ ctx (g σ) = true) /\
  (forall later t v earlier t',
     trace σ = later ++ EvRet t OpDone v :: earlier ->
     In (EvCancel t') earlier -> v = VBool true).
Proof.
  intros H. pose proof (capture_inv_run _ _ _ _ H) as Hc.
  destruct (hist_inv_run _ _ _ _ H) as (_ & (He & Ho & _) & _ & _ & Hh).
  split.
  - intros O. split; [|exact (Hc O)].
    rewrite He. rewrite Ho in O. unfold failed in O.
    destruct (first_failure (trace σ)); [discriminate | discriminate O].
  - intros later t v earlier t' T Hin. rewrite T in Hh.
    apply hist_ok_app in Hh. simpl in Hh. destruct Hh as [-> _].
    assert (Hx : existsb is_cancel earlier = true).
    { apply existsb_exists. exists (EvCancel t'). auto. }
    rewrite Hx, orb_true_r. reflexivity.
Qed.

(** A subtask fails, its failure is captured, and the client reads
    [Done()] without waiting. *)
Lemma failure_cancels_context_witness :
  exists σ, run [(0,0); (0,0); (1,0); (1,0); (0,0)]
              (init false [[CGo (const_task (Some e1)); CDone]]) = Some σ /\
    trace σ = [] ++ EvRet 0 OpDone (VBool true) ::
              [EvCancel 1; EvSetErr 1 e1; EvFail 1 e1; EvRet 0 OpGo VUnit;
               EvStart (const_task (Some e1))] /\
    errOnce (g σ) = true /\ err (g σ) <> None /\ ctx (g σ) = true.
Proof.
  eexists. split; [vm_compute; reflexivity|]. split; [reflexivity|].
  split; [reflexivity|].
  refine (proj1 (failure_cancels_context false
            [[CGo (const_task (Some e1)); CDone]]
            [(0,0); (0,0); (1,0); (1,0); (0,0)] _ _) _).
  - vm_compute; reflexivity.
  - reflexivity.
Defined.

Lemma first_failure_app l tr m :
  first_failure tr = Some m -> first_failure (l ++ tr) = Some m.
Proof.
  intros H. induction l as [|ev l IH]; simpl; [exact H|].
  rewrite IH. reflexivity.
Qed.

(** X5.  The error of a group does not change once it has been reported:
    in every run of a fresh group, when a [Wait] or a [Cancel] has
    returned a non-nil error, every later [Wait] and [Cancel] returns the
    same error. *)
Theorem reported_error_is_final pd scripts sched σ later i o v mid i' o' m
    earlier :
  run sched (init pd scripts) = Some σ ->
  (o = OpWait \/ o = OpCancel) -> (o' = OpWait \/ o' = OpCancel) ->
  trace σ = later ++ EvRet i o v :: mid ++
            EvRet i' o' (VErr (Some m)) :: earlier ->
  v = VErr (Some m).
Proof.
  intros H Ho Ho' T.
  destruct (hist_inv_run _ _ _ _ H) as (_ & _ & _ & _ & Hh).
  rewrite T in Hh.
  destruct (returned_after_cancel pd later _ i o v Ho Hh) as (-> & _ & _).
  apply hist_ok_app in Hh. simpl in Hh. destruct Hh as [_ Hh].
  destruct (returned_after_cancel pd mid _ i' o' _ Ho' Hh) as (Hm & _ & _).
  injection Hm as Hm. f_equal.
  apply first_failure_app. simpl. rewrite <- Hm. reflexivity.
Qed.

Lemma zero_group_run : run zero_group_sched zero_group = Some zero_group_end.
Proof. vm_compute. reflexivity. Qed.

(** Both calls of [Wait] in [zero_group] return the first error. *)
Lemma reported_error_is_final_witness :
  trace zero_group_end =
    [] ++ EvRet 0 OpWait (VErr (Some e1)) ::
      [EvCancel 0; EvFail 2 e2; EvRet 0 OpGo VUnit;
       EvStart (const_task (Some e2))] ++
      EvRet 0 OpWait (VErr (Some e1)) ::
      [EvCancel 0; EvCancel 1; EvSetErr 1 e1; EvFail 1 e1;
       EvRet 0 OpGo VUnit; EvStart (const_task (Some e1))] /\
  VErr (Some e1) = VErr (Some e1).
Proof.
  split; [reflexivity|].
  exact (reported_error_is_final false
           [[CGo (const_task (Some e1)); CWait;
             CGo (const_task (Some e2)); CWait]]
           zero_group_sched zero_group_end [] 0 OpWait (VErr (Some e1))
           [EvCancel 0; EvFail 2 e2; EvRet 0 OpGo VUnit;
            EvStart (const_task (Some e2))]
           0 OpWait e1 _ zero_group_run
           (or_introl eq_refl) (or_introl eq_refl) eq_refl).
Defined.

(** ** Runs with subtasks that stall *)

Lemma step_b_step stalls i j σ σ' :
  step_b stalls i j σ = Some σ' -> step i j σ = Some σ'.
Proof.
  unfold step_b. destruct (threads σ !! i) as [[]|]; auto.
  destruct (stalls f (ctx (g σ))); [discriminate | auto].
Qed.

(** A run with subtasks that stall is a run. *)
Lemma run_b_run stalls sched σ σ' :
  run_b stalls sched σ = Some σ' -> run sched σ = Some σ'.
Proof.
  revert σ. induction sched as [|[i j] s IH]; intros σ H; simpl in *; [exact H|].
  destruct (step_b stalls i j σ) as [σ1|] eqn:E; [|discriminate].
  rewrite (step_b_step _ _ _ _ _ E). auto.
Qed.

Lemma step_b_free stalls i j σ :
  (forall t f, threads σ !! t = Some (Task_call f) ->
     stalls f (ctx (g σ)) = false) ->
  step_b stalls i j σ = step i j σ.
Proof.
  intros H. unfold step_b. destruct (threads σ !! i) as [[]|] eqn:E; auto.
  rewrite (H i f E). reflexivity.
Qed.

Lemma run_b_never stalls sched σ :
  (forall f b, stalls f b = false) -> run_b stalls sched σ = run sched σ.
Proof.
  intros H. revert σ. induction sched as [|[i j] s IH]; intros σ; simpl;
    [reflexivity|].
  rewrite step_b_free by (intros; apply H).
  destruct (step i j σ); auto.
Qed.

(** A subtask that waits for the cancellation keeps [Wait] waiting:
    [Wait] cancels the context only when the subtask has returned, and no
    goroutine has a step. *)
Example Wait_waits_for_stalled_subtask :
  threads stalled_wait = [Client [CWait]; Task_call (const_task None)] /\
  forall i j, step_b waits_for_cancel i j stalled_wait = None.
Proof.
  split; [reflexivity|]. intros [|[|i]] j; reflexivity.
Qed.

(** [Cancel] cancels the context before it waits, so the same subtask
    returns and [Cancel] returns after it. *)
Example Cancel_releases_stalled_subtask :
  option_map (fun σ => (hd_error (trace σ), threads σ))
    (run_b waits_for_cancel
       [(0,0); (0,0); (0,0); (1,0); (1,0); (1,0); (1,0); (0,0); (0,0)]
       (init false [[CGo (const_task None); CCancel]]))
  = Some (Some (EvRet 0 OpCancel (VErr None)), [Client []; Exit]).
Proof. reflexivity. Qed.

(** ** Submission under a limit *)

Lemma no_parked_send c (l : list pc) :
  sumf (stray c) l = 0 -> existsb (parked_send c) l = false ->
  sumf parked l = 0.
Proof.
  induction l as [|p l IH]; simpl; [reflexivity|].
  intros Hy He. apply orb_false_elim in He as [Hp He].
  rewrite IH by (assumption || lia).
  destruct p; simpl in *; try reflexivity.
  destruct (Nat.eqb_spec c0 c); [subst|lia].
  rewrite Nat.eqb_refl in Hp. discriminate.
Qed.

Lemma full_inv_step c K i j σ σ' :
  gate_inv c K σ -> full_inv K σ -> step i j σ = Some σ' ->
  limit_calls (trace σ') = limit_calls (trace σ) -> full_inv K σ'.
Proof.
  unfold gate_inv, full_inv. intros (Hs & Hc & Hk & Hy) Hf H.
  step_inv H; simpl in *; rewrite ?limit_calls_app, ?limit_calls_record;
    unfold limit_calls; simpl; intros Hl.
  all: try lia.
  all: pose proof (sumf_lookup (stray c) _ _ _ E) as Ly;
       pose proof (sumf_lookup holder _ _ _ E) as Lh;
       pose proof (sumf_lookup parked _ _ _ E) as Lp;
       simpl in *.
  all: try match goal with
       | H1 : threads _ !! ?jj = Some ?q |- _ =>
           lazymatch q with done_parked _ => idtac | Go_parked _ _ _ => idtac end;
           pose proof (sumf_lookup (stray c) _ _ _ H1);
           pose proof (sumf_lookup parked _ _ _ H1);
           pose proof (sumf_lookup holder _ _ _ H1); simpl in *
       end.
  all: try lia.
  all: try congruence.
  all: split_ifs; try lia.
  all: try match goal with
       | H1 : Some _ = Some _ |- _ => inversion H1; subst; clear H1
       end.
  all: same_lookup.
  all: try match goal with
       | H1 : existsb (parked_send _) _ = false |- _ =>
           pose proof (no_parked_send _ _ Hy H1)
       end.
  all: sumf_for holder; sumf_for parked; simpl in *.
  all: rewrite ?E in *; simpl in *.
  all: try lia.
Qed.

Lemma full_inv_run c K sched σ σ' :
  gate_inv c K σ -> full_inv K σ -> run sched σ = Some σ' ->
  limit_calls (trace σ') = limit_calls (trace σ) ->
  gate_inv c K σ' /\ full_inv K σ'.
Proof.
  revert σ. induction sched as [|[i j] s IH]; intros σ HI HF H Hl; simpl in H.
  - inversion H; subst. split; assumption.
  - destruct (step i j σ) as [σ1|] eqn:E; [|discriminate].
    pose proof (limit_calls_step _ _ _ _ E).
    pose proof (limit_calls_run _ _ _ H).
    apply (IH σ1); [| |assumption|lia].
    + eapply gate_inv_step; eauto. lia.
    + eapply full_inv_step; eauto. lia.
Qed.

(** What holds of a group under a limit. *)
Lemma under_limit_inv K σ :
  under_limit K σ ->
  exists c, gate_inv c K σ /\ full_inv K σ /\ wg_inv σ.
Proof.
  intros (pd & scripts & sched0 & σ0 & i & j & k & sched &
          R0 & E & Hb & Hl & R & Hn).
  assert (W : wg_inv σ).
  { assert (Rall : run (sched0 ++ (i, j) :: sched) (init pd scripts) = Some σ)
      by (rewrite run_app, R0; exact R).
    apply (hist_inv_run _ _ _ _ Rall). }
  simpl in R. destruct (step i j σ0) as [σ1|] eqn:S1; [|discriminate].
  destruct (gate_inv_SetLimit _ _ _ _ _ _ E Hb Hl S1) as (HI & T1 & Th & _).
  assert (HF : full_inv K σ1).
  { unfold full_inv. rewrite Th. intros Hp.
    pose proof (sumf_insert parked _ _ _ (Client k) E) as Hins. simpl in Hins.
    pose proof (sumf_le parked busy (threads σ0)) as L.
    assert (forall p, parked p <= busy p) by (intros []; simpl; lia).
    specialize (L H). lia. }
  exists (length (chans σ0)).
  destruct (full_inv_run _ _ _ _ _ HI HF R) as (HI' & HF').
  { rewrite T1. unfold limit_calls in *. simpl. lia. }
  auto.
Qed.



Lemma existsb_send_lookup c (l : list pc) :
  existsb (parked_send c) l = true ->
  exists j f k, l !! j = Some (Go_parked c f k).
Proof.
  induction l as [|p l IH]; simpl; [discriminate|].
  destruct (parked_send c p) eqn:P; simpl.
  - intros _. destruct p; simpl in P; try discriminate.
    apply Nat.eqb_eq in P. subst. exists 0, f, k. reflexivity.
  - intros H. destruct (IH H) as (j & f & k & E). exists (S j), f, k. exact E.
Qed.

Lemma sumf_pos_lookup w (l : list pc) :
  0 < sumf w l -> exists t p, l !! t = Some p /\ 0 < w p.
Proof.
  induction l as [|q l IH]; simpl; [lia|].
  intros H. destruct (w q) as [|n] eqn:W.
  - destruct (IH H) as (t & p & E & Hp). exists (S t), p. auto.
  - exists 0, q. split; [reflexivity | lia].
Qed.

Lemma gate_demo_under sched σ :
  run ((0,0) :: sched) gate_demo = Some σ -> limit_calls (trace σ) = 1 ->
  under_limit 1 σ.
Proof.
  intros R Hl.
  exists false,
    [[CSetLimit 1; CTryGo (const_task None); CGo (const_task None); CWait]],
    [], gate_demo, 0, 0,
    [CTryGo (const_task None); CGo (const_task None); CWait], sched.
  repeat split; auto.
Qed.



Lemma gate_parked_under : under_limit 1 gate_parked.
Proof.
  apply (gate_demo_under [(0,0); (0,0); (0,0); (0,0)]); vm_compute; reflexivity.
Qed.








(** Under a gate with room for at least one subtask, whoever waits waits
    for a goroutine that can go on. *)
Lemma gate_progress c K σ t p :
  gate_inv c K σ -> full_inv K σ -> wg_inv σ -> 0 < K ->
  threads σ !! t = Some p -> finished p = false ->
  exists i j σ', step i j σ = Some σ'.
Proof.
  intros (Hs & Hc & Hk & Hy) HF Hw HK E Hfin.
  unfold wg_inv in Hw.
  assert (Hrecv : forall i c', threads σ !! i = Some (done_recv c') ->
            exists j' σ', step i j' σ = Some σ').
  { intros i c' Ei.
    pose proof (sumf_lookup (stray c) _ _ _ Ei) as Ly. simpl in Ly.
    destruct (Nat.eqb_spec c' c); [subst c' | lia].
    unfold step. rewrite Ei. unfold chanrecv. rewrite Hc.
    destruct (existsb (parked_send c) (threads σ)) eqn:P.
    - destruct (existsb_send_lookup _ _ P) as (j & f & k & Ej).
      exists j. rewrite Ej, Nat.eqb_refl. eauto.
    - exists 0. destruct (0 <? len _); eauto. }
  assert (Hlive : forall i q, threads σ !! i = Some q -> 0 < live q ->
            exists i' j' σ', step i' j' σ = Some σ').
  { intros i q Ei Hq.
    pose proof (sumf_lookup (stray c) _ _ _ Ei) as Ly.
    destruct q; simpl in Hq, Ly; try lia.
    - exists i, 0. unfold step. rewrite Ei. eauto.
    - exists i, 0. unfold step. rewrite Ei. eauto.
    - exists i, 0. unfold step. rewrite Ei, Hs. eauto.
    - destruct (Hrecv i c0 Ei) as (j' & σ' & S'). eauto.
    - exists i, 0. unfold step. rewrite Ei. destruct (wg (g σ)); eauto. }
  assert (Hwait : wg (g σ) <> 0 -> exists i' j' σ', step i' j' σ = Some σ').
  { intros Hn. destruct (sumf_pos_lookup live (threads σ)) as (i & q & Ei & Hq);
      [lia|]. eapply Hlive; eauto. }
  assert (Hchan : forall j, (exists r, chansend c j σ = Proceed r) \/
                            chansend c j σ = WouldBlock).
  { intros j. unfold chansend. rewrite Hc, (stray_zero_no_parked _ _ Hy). simpl.
    destruct (_ <? _); eauto. }
  pose proof (sumf_lookup (stray c) _ _ _ E) as Ly.
  destruct p as [[|[] k]| | | | | | | | | | | | | | | |];
    simpl in Hfin, Ly; try discriminate.
  all: try (exists t, 0; unfold step; rewrite E; eauto; fail).
  all: try (exists t, 0; unfold step; rewrite E, Hs; eauto; fail).
  - (* TryGo *)
    exists t, 0. unfold step. rewrite E, Hs.
    destruct (Hchan 0) as [(r & ->) | ->]; eauto.
  - (* SetLimit *)
    exists t, 0. unfold step. rewrite E.
    destruct (SetLimit _ _ _) as [[g' chans']|]; eauto.
  - (* Wait *)
    destruct (Nat.eqb_spec (wg (g σ)) 0) as [W|W]; [|auto].
    exists t, 0. unfold step. rewrite E, W. eauto.
  - (* Go, sending *)
    destruct (Nat.eqb_spec c0 c); [subst c0 | lia].
    exists t, 0. unfold step. rewrite E.
    destruct (Hchan 0) as [(r & ->) | ->]; eauto.
  - (* Go, parked *)
    pose proof (sumf_lookup parked _ _ _ E) as Lp. simpl in Lp.
    assert (Hh : sumf holder (threads σ) = K) by (apply HF; lia).
    destruct (sumf_pos_lookup holder (threads σ)) as (i & q & Ei & Hq); [lia|].
    destruct q; simpl in Hq; try lia.
    1-2: exists i, 0; unfold step; rewrite Ei; eauto.
    all: eapply Hlive; eauto; simpl; lia.
  - (* Cancel *)
    destruct (Nat.eqb_spec (wg (g σ)) 0) as [W|W]; [|auto].
    exists t, 0. unfold step. rewrite E, W. eauto.
  - (* done, receiving *)
    destruct (Hrecv t c0 E) as (j' & σ' & S'). eauto.
  - (* done, parked *) lia.
  - exists t, 0. unfold step. rewrite E. destruct (wg (g σ)); eauto.
Qed.

(** X9.  A group with a limit of at least one does not deadlock on its
    own account: as long as some goroutine has not finished and no
    subtask that has been started stalls, some goroutine has a step.  A
    caller parked in [Go] waits for a slot that a goroutine will release,
    a caller blocked in [Wait] or [Cancel] for a goroutine that can go
    on. *)
Theorem limited_group_makes_progress stalls K σ t p :
  under_limit K σ -> 0 < K ->
  (forall i f, threads σ !! i = Some (Task_call f) ->
     stalls f (ctx (g σ)) = false) ->
  threads σ !! t = Some p -> finished p = false ->
  exists i j σ', step_b stalls i j σ = Some σ'.
Proof.
  intros U HK Hf E Hfin.
  destruct (under_limit_inv _ _ U) as (c & HI & HF & Hw).
  destruct (gate_progress c K σ t p) as (i & j & σ' & S); auto.
  exists i, j, σ'. rewrite step_b_free; assumption.
Qed.

(** With the caller of [Go] parked, the subtask can go on. *)
Lemma limited_group_makes_progress_witness :
  under_limit 1 gate_parked /\
  exists i j σ', step_b returns_all i j gate_parked = Some σ'.
Proof.
  split; [exact gate_parked_under|].
  apply (limited_group_makes_progress returns_all 1 gate_parked 0
           (Go_parked 0 (const_task None) [CWait]) gate_parked_under);
    [lia | reflexivity | reflexivity | reflexivity].
Defined.

(** ** Changing the limit *)

(** X10.  A group under a limit in which no goroutine is in the middle of
    a submission or of a subtask has an empty gate, so a call of
    [SetLimit] does not panic there; with [n >= 0] the group is then under
    the limit [n], with [n < 0] it has no limit. *)
Theorem quiet_group_accepts_new_limit K σ i n k j :
  under_limit K σ ->
  sumf busy (threads σ) = 0 ->
  threads σ !! i = Some (Client (CSetLimit n :: k)) ->
  chan_len (chans σ) (sem (g σ)) = 0 /\
  exists σ', step i j σ = Some σ' /\
    threads σ' = <[i := Client k]> (threads σ) /\
    trace σ' = EvRet i OpSetLimit VUnit :: trace σ /\
    ((0 <= n)%Z -> under_limit (Z.to_nat n) σ') /\
    ((n < 0)%Z -> sem (g σ') = None).
Proof.
  intros U Hb E.
  destruct (under_limit_inv _ _ U) as (c & (Hs & Hc & Hk & Hy) & _ & _).
  assert (Hh : sumf holder (threads σ) = 0).
  { pose proof (sumf_le holder busy (threads σ)) as L.
    assert (forall p, holder p <= busy p) by (intros []; simpl; lia).
    specialize (L H). lia. }
  assert (Hl : chan_len (chans σ) (sem (g σ)) = 0).
  { unfold chan_len. rewrite Hs, Hc. exact Hh. }
  split; [exact Hl|].
  assert (S : step i j σ =
    Some {| g := fst (if (n <? 0)%Z then (set_sem None (g σ), chans σ)
                     else (set_sem (Some (length (chans σ))) (g σ),
                           chans σ ++ [Chan (Z.to_nat n) 0]));
            chans := snd (if (n <? 0)%Z then (set_sem None (g σ), chans σ)
                     else (set_sem (Some (length (chans σ))) (g σ),
                           chans σ ++ [Chan (Z.to_nat n) 0]));
            threads := <[i := Client k]> (threads σ);
            trace := EvRet i OpSetLimit VUnit :: trace σ |}).
  { unfold step. rewrite E. unfold SetLimit. rewrite Hl. simpl.
    destruct (n <? 0)%Z; reflexivity. }
  eexists. split; [exact S|]. simpl. repeat split.
  - intros Hn.
    destruct U as (pd & scripts & sched0 & σ0 & i0 & j0 & k0 & sched &
                   R0 & _ & _ & _ & R & _).
    exists pd, scripts, (sched0 ++ (i0, j0) :: sched), σ, i, j, k, [].
    repeat split; auto.
    + rewrite run_app, R0. exact R.
    + rewrite Z2Nat.id by assumption. exact E.
    + simpl. rewrite S. reflexivity.
  - intros Hn. destruct (Z.ltb_spec n 0); [reflexivity | lia].
Qed.

Lemma relimit_quiet_under : under_limit 1 relimit_quiet_end.
Proof.
  exists false,
    [[CSetLimit 1; CGo (const_task None); CWait; CSetLimit 2]],
    [], relimit_quiet, 0, 0, [CGo (const_task None); CWait; CSetLimit 2],
    [(0,0); (0,0); (0,0); (1,0); (1,0); (1,0); (1,0); (1,0);
     (0,0); (0,0); (0,0)].
  repeat split; auto.
Qed.

(** After [Wait] the limit is raised from one to two. *)
Lemma quiet_group_accepts_new_limit_witness :
  under_limit 1 relimit_quiet_end /\
  exists σ', step 0 0 relimit_quiet_end = Some σ' /\ under_limit 2 σ'.
Proof.
  split; [exact relimit_quiet_under|].
  destruct (quiet_group_accepts_new_limit 1 relimit_quiet_end 0 2 [] 0
              relimit_quiet_under eq_refl eq_refl)
    as (_ & σ' & S & _ & _ & Hu & _).
  exists σ'. split; [exact S|]. apply Hu. lia.
Defined.

(** ** A group without a limit *)

Lemma nil_inv_step i j σ σ' :
  nil_inv σ -> step i j σ = Some σ' ->
  limit_calls (trace σ') = limit_calls (trace σ) -> nil_inv σ'.
Proof.
  unfold nil_inv. intros (Hs & Hc & Ha) H.
  step_inv H; simpl in *; rewrite ?limit_calls_app, ?limit_calls_record;
    unfold limit_calls; simpl; intros Hl.
  all: try lia.
  all: try congruence.
  all: pose proof (sumf_lookup at_gate _ _ _ E) as La; simpl in La.
  all: try lia.
  all: rewrite ?record_sem.
  all: repeat split; try assumption.
  all: sumf_for at_gate; simpl in *; lia.
Qed.

Lemma nil_inv_run pd scripts sched σ :
  run sched (init pd scripts) = Some σ -> limit_calls (trace σ) = 0 ->
  nil_inv σ.
Proof.
  intros R Hl.
  assert (G : forall s a b, nil_inv a -> limit_calls (trace a) = 0 ->
            run s a = Some b -> limit_calls (trace b) = 0 -> nil_inv b).
  { induction s as [|[i j] s IH]; intros a b Ia La H Lb; simpl in H.
    - inversion H; subst. exact Ia.
    - destruct (step i j a) as [a1|] eqn:E; [|discriminate].
      pose proof (limit_calls_step _ _ _ _ E).
      pose proof (limit_calls_run _ _ _ H).
      apply (IH a1 b); auto; [|lia].
      eapply nil_inv_step; eauto. lia. }
  apply (G sched (init pd scripts)); auto.
  unfold nil_inv; simpl. rewrite sumf_map_Client by reflexivity. auto.
Qed.

(** X11.  A group made by [New] has no limit until [SetLimit] is called:
    [g.sem] is nil, no goroutine is at a channel operation, every [TryGo]
    has returned [true], and the first call of [SetLimit] does not panic,
    whatever its argument and whatever is running. *)
Theorem fresh_group_has_no_limit pd scripts sched σ :
  run sched (init pd scripts) = Some σ ->
  limit_calls (trace σ) = 0 ->
  sem (g σ) = None /\
  sumf at_gate (threads σ) = 0 /\
  (forall t v, In (EvRet t OpTryGo v) (trace σ) -> v = VBool true) /\
  (forall i n k j, threads σ !! i = Some (Client (CSetLimit n :: k)) ->
     exists σ', step i j σ = Some σ' /\ threads σ' !! i = Some (Client k)).
Proof.
  intros R Hl. destruct (nil_inv_run _ _ _ _ R Hl) as (Hs & Hc & Ha).
  split; [exact Hs|]. split; [exact Ha|]. split.
  - destruct (nil_gate_run sched (init pd scripts) σ eq_refl R)
      as (_ & evs & T & A); [rewrite Hl; reflexivity|].
    simpl in T. rewrite app_nil_r in T. subst evs.
    intros t v Hin. rewrite Forall_forall in A.
    exact (A _ (proj2 (list_elem_of_In _ _) Hin)).
  - intros i n k j E. pose proof (lookup_lt_Some _ _ _ E) as Lt.
    unfold step. rewrite E. unfold SetLimit. rewrite Hs. simpl.
    destruct (n <? 0)%Z; eexists; (split; [reflexivity|]); simpl;
      apply list_lookup_insert_eq; assumption.
Qed.

(** [SetLimit] is called for the first time while a subtask runs. *)
Lemma fresh_group_has_no_limit_witness :
  exists σ, run [(0,0); (0,0)]
              (init false [[CGo (const_task None); CSetLimit 1]]) = Some σ /\
    threads σ = [Client [CSetLimit 1]; Task_call (const_task None)] /\
    exists σ', step 0 0 σ = Some σ' /\ threads σ' !! 0 = Some (Client []).
Proof.
  eexists. split; [vm_compute; reflexivity|]. split; [reflexivity|].
  refine (proj2 (proj2 (proj2 (fresh_group_has_no_limit false
            [[CGo (const_task None); CSetLimit 1]] [(0,0); (0,0)] _ _ _)))
            0 1%Z [] 0 _).
  - vm_compute; reflexivity.
  - reflexivity.
  - reflexivity.
Defined.

(** Without a gate nobody waits but in [Wait] and [Cancel], for a
    goroutine that can go on. *)
Lemma nil_progress σ t p :
  nil_inv σ -> wg_inv σ ->
  threads σ !! t = Some p -> finished p = false ->
  exists i j σ', step i j σ = Some σ'.
Proof.
  intros (Hs & Hc & Ha) Hw E Hfin. unfold wg_inv in Hw.
  assert (Hlive : forall i q, threads σ !! i = Some q -> 0 < live q ->
            exists i' j' σ', step i' j' σ = Some σ').
  { intros i q Ei Hq.
    pose proof (sumf_lookup at_gate _ _ _ Ei) as La.
    exists i, 0. unfold step. rewrite Ei.
    destruct q; simpl in Hq, La; try lia; rewrite ?Hs; eauto.
    destruct (wg (g σ)); eauto. }
  assert (Hwait : wg (g σ) <> 0 -> exists i' j' σ', step i' j' σ = Some σ').
  { intros Hn. destruct (sumf_pos_lookup live (threads σ)) as (i & q & Ei & Hq);
      [lia|]. eapply Hlive; eauto. }
  pose proof (sumf_lookup at_gate _ _ _ E) as La.
  destruct p as [[|[] k]| | | | | | | | | | | | | | | |];
    simpl in Hfin, La; try discriminate; try lia.
  all: try (exists t, 0; unfold step; rewrite E; eauto; fail).
  all: try (exists t, 0; unfold step; rewrite E, Hs; eauto; fail).
  - exists t, 0. unfold step. rewrite E.
    destruct (SetLimit _ _ _) as [[g' chans']|]; eauto.
  - destruct (Nat.eqb_spec (wg (g σ)) 0) as [W|W]; [|auto].
    exists t, 0. unfold step. rewrite E, W. eauto.
  - destruct (Nat.eqb_spec (wg (g σ)) 0) as [W|W]; [|auto].
    exists t, 0. unfold step. rewrite E, W. eauto.
  - exists t, 0. unfold step. rewrite E. destruct (wg (g σ)); eauto.
Qed.

(** X12.  A group on which no limit was ever set does not deadlock on
    its own account: as long as some goroutine has not finished and no
    subtask that has been started stalls, some goroutine has a step.
    [Go] and [TryGo] never wait, and a caller blocked in [Wait] or
    [Cancel] waits for a goroutine that can go on. *)
Theorem unlimited_group_makes_progress stalls pd scripts sched σ t p :
  run_b stalls sched (init pd scripts) = Some σ ->
  limit_calls (trace σ) = 0 ->
  (forall i f, threads σ !! i = Some (Task_call f) ->
     stalls f (ctx (g σ)) = false) ->
  threads σ !! t = Some p -> finished p = false ->
  exists i j σ', step_b stalls i j σ = Some σ'.
Proof.
  intros R Hl Hf E Hfin. apply run_b_run in R.
  destruct (nil_progress σ t p) as (i & j & σ' & S); auto.
  - eapply nil_inv_run; eauto.
  - apply (hist_inv_run _ _ _ _ R).
  - exists i, j, σ'. rewrite step_b_free; assumption.
Qed.

(** The subtasks wait for the cancellation and the parent context is
    cancelled: the caller is blocked in [Wait] and the subtasks can go
    on. *)
Lemma unlimited_group_makes_progress_witness :
  run_b waits_for_cancel [(0,0); (0,0); (0,0); (0,0)]
    (init true [[CGo (const_task (Some e1)); CGo (const_task (Some e2));
                 CWait]]) = Some cancelled_two /\
  step_b waits_for_cancel 0 0 cancelled_two = None /\
  exists i j σ', step_b waits_for_cancel i j cancelled_two = Some σ'.
Proof.
  split; [vm_compute; reflexivity|]. split; [reflexivity|].
  apply (unlimited_group_makes_progress waits_for_cancel true
           [[CGo (const_task (Some e1)); CGo (const_task (Some e2)); CWait]]
           [(0,0); (0,0); (0,0); (0,0)] cancelled_two 0 (Client [CWait]));
    [vm_compute; reflexivity | reflexivity | intros; reflexivity
    | reflexivity | reflexivity].
Defined.

(** ** Termination *)

Lemma mu_step i j σ σ' :
  step i j σ = Some σ' -> sumf mu (threads σ') < sumf mu (threads σ).
Proof.
  intros H. step_inv H; simpl in *.
  all: pose proof (sumf_lookup mu _ _ _ E) as Lm; simpl in Lm.
  all: try match goal with
       | H1 : threads _ !! ?jj = Some ?q |- _ =>
           lazymatch q with done_parked _ => idtac | Go_parked _ _ _ => idtac end;
           pose proof (sumf_lookup mu _ _ _ H1); simpl in *
       end.
  all: sumf_for mu; simpl in *.
  all: rewrite ?E in *; simpl in *.
  all: try lia.
Qed.

(** X13.  No call of the group and no goroutine it starts runs for ever
    on its own account: every step uses up some of the bounded work that
    is left, so a run of clients takes at most ten steps for each [Go],
    eight for each [TryGo], three for each [Wait] and [Cancel] and one
    for every other call. *)
Theorem runs_are_bounded sched σ σ' :
  run sched σ = Some σ' ->
  length sched + sumf mu (threads σ') <= sumf mu (threads σ).
Proof.
  revert σ. induction sched as [|[i j] s IH]; intros σ H; simpl in H.
  - inversion H; subst. simpl. lia.
  - destruct (step i j σ) as [σ1|] eqn:E; [|discriminate].
    apply mu_step in E. apply IH in H. simpl. lia.
Qed.

(** The run of [zero_group] takes 18 of its 26 steps. *)
Lemma runs_are_bounded_witness :
  sumf mu (threads zero_group) = 26 /\
  length zero_group_sched + sumf mu (threads zero_group_end) <= 26.
Proof.
  split; [reflexivity|].
  exact (runs_are_bounded zero_group_sched zero_group zero_group_end
           zero_group_run).
Defined.

(** ** Where the errors come from *)

Section Origin.

Variable scripts : list (list cmd).

Lemma origin_inv_step i j σ σ' :
  origin_inv scripts σ -> step i j σ = Some σ' -> origin_inv scripts σ'.
Proof.
  unfold origin_inv. intros (Hp & Hf) H.
  step_inv H; simpl in *.
  all: pose proof (Forall_lookup_1 _ _ _ _ Hp E) as Pi; simpl in Pi.
  all: try match goal with
       | H1 : threads _ !! ?jj = Some ?q |- _ =>
           lazymatch q with done_parked _ => idtac | Go_parked _ _ _ => idtac end;
           pose proof (Forall_lookup_1 _ _ _ _ Hp H1) as Pj; simpl in Pj
       end.
  all: try match type of Pi with
       | Forall _ (_ :: _) => apply Forall_cons in Pi; destruct Pi as [Pc Pk];
                              simpl in Pc
       end.
  all: split;
    [ repeat first [apply Forall_insert | apply Forall_app; split
                   | apply Forall_cons; split | apply Forall_nil];
      simpl; try tauto; try assumption
    | repeat first [apply Forall_cons; split | apply Forall_app; split];
      simpl; try tauto; try assumption ].
  - intros m Hm. exists f, (ctx (g σ)). auto.
  - destruct e as [m|]; simpl; [|constructor].
    destruct (errOnce (g σ)); repeat constructor; simpl; auto.
Qed.

Lemma origin_inv_init pd : origin_inv scripts (init pd scripts).
Proof.
  unfold origin_inv; simpl. split; [|constructor].
  rewrite Forall_forall. intros p Hp.
  apply list_elem_of_In, in_map_iff in Hp. destruct Hp as (k & <- & Hk).
  simpl. rewrite Forall_forall. intros c Hc. apply list_elem_of_In in Hc.
  destruct c; simpl; auto; exists k; auto.
Qed.

Lemma origin_inv_run pd sched σ :
  run sched (init pd scripts) = Some σ -> origin_inv scripts σ.
Proof.
  apply (run_invariant (origin_inv scripts)); [|apply origin_inv_init].
  intros i j a b. apply origin_inv_step.
Qed.

End Origin.

(** X14.  The group invents neither subtasks nor errors.  In every run of
    a fresh group, every subtask that was started was handed to [Go] or
    [TryGo] by a client; and the error kept in [g.err], and so every
    non-nil error returned by [Wait] or [Cancel], is an error that one of
    these subtasks returns. *)
Theorem errors_come_from_subtasks pd scripts sched σ :
  run sched (init pd scripts) = Some σ ->
  (forall f, In (EvStart f) (trace σ) -> submitted scripts f) /\
  (forall m, err (g σ) = Some m -> produced scripts m) /\
  (forall t o m, o = OpWait \/ o = OpCancel ->
     In (EvRet t o (VErr (Some m))) (trace σ) -> produced scripts m).
Proof.
  intros R. destruct (origin_inv_run _ _ _ _ R) as (_ & Hf).
  destruct (hist_inv_run _ _ _ _ R) as (_ & (He & _) & _ & _ & Hh).
  rewrite Forall_forall in Hf.
  assert (Hfail : forall tr m, (forall ev, In ev tr -> In ev (trace σ)) ->
            first_failure tr = Some m -> produced scripts m).
  { intros tr m Hsub F. destruct (first_failure_some _ _ F) as (t & Hin).
    exact (Hf _ (proj2 (list_elem_of_In _ _) (Hsub _ Hin))). }
  split; [|split].
  - intros f Hin. exact (Hf _ (proj2 (list_elem_of_In _ _) Hin)).
  - intros m Hm. rewrite He in Hm. apply (Hfail (trace σ)); auto.
  - intros t o m Ho Hin. apply in_split in Hin as (later & earlier & T).
    rewrite T in Hh.
    destruct (returned_after_cancel pd later earlier t o _ Ho Hh) as (Hv & _).
    injection Hv as Hv. apply (Hfail earlier); [|auto].
    intros ev Hev. rewrite T. apply in_or_app. right. right. exact Hev.
Qed.

(** In [second_first_end] the error that [Wait] returned is the one of the
    second subtask. *)
Lemma errors_come_from_subtasks_witness :
  err (g second_first_end) = Some e2 /\
  produced
    [[CGo (const_task (Some e1)); CGo (const_task (Some e2)); CWait]] e2.
Proof.
  split; [reflexivity|].
  exact (proj1 (proj2 (errors_come_from_subtasks false
           [[CGo (const_task (Some e1)); CGo (const_task (Some e2)); CWait]]
           second_first second_first_end second_first_run)) e2 eq_refl).
Defined.

(** ** Subtasks that succeed *)

Lemma harmless_inv_step pd i j σ σ' :
  harmless_inv pd σ -> step i j σ = Some σ' -> harmless_inv pd σ'.
Proof.
  unfold harmless_inv. intros (Hx & Ho & He & Hp & Hf) H.
  step_inv H; simpl in *.
  all: pose proof (Forall_lookup_1 _ _ _ _ Hp E) as Pi; simpl in Pi.
  all: try contradiction.
  all: try match goal with
       | H1 : threads _ !! ?jj = Some ?q |- _ =>
           lazymatch q with done_parked _ => idtac | Go_parked _ _ _ => idtac end;
           pose proof (Forall_lookup_1 _ _ _ _ Hp H1) as Pj; simpl in Pj
       end.
  all: try match type of Pi with
       | Forall _ (_ :: _) => apply Forall_cons in Pi; destruct Pi as [Pc Pk];
                              simpl in Pc
       end.
  all: try contradiction.
  all: subst; simpl.
  all: repeat match goal with |- _ /\ _ => split end; try assumption;
       try reflexivity.
  all: try (repeat first [apply Forall_insert | apply Forall_app; split
                   | apply Forall_cons; split | apply Forall_nil];
      simpl; try tauto; try assumption; fail).
  apply Forall_insert; [assumption | simpl; apply Pi].
Qed.

Lemma harmless_inv_init pd scripts :
  Forall (Forall harmless) scripts -> harmless_inv pd (init pd scripts).
Proof.
  intros H. unfold harmless_inv; simpl. repeat split; [|constructor].
  rewrite Forall_forall in H. rewrite Forall_forall. intros p Hp.
  apply list_elem_of_In, in_map_iff in Hp. destruct Hp as (k & <- & Hk).
  simpl. apply (H k), list_elem_of_In, Hk.
Qed.

(** X15.  The group cancels its context only for a reason.  When no
    client calls [Wait] or [Cancel] or cancels the parent context, and
    every subtask handed to [Go] and [TryGo] returns [nil], then in every
    run the context stays as [New] made it, no error is recorded, and
    every read of [Done()] finds the signal as the parent left it. *)
Theorem success_never_cancels pd scripts sched σ :
  Forall (Forall harmless) scripts ->
  run sched (init pd scripts) = Some σ ->
  ctx (g σ) = pd /\ err (g σ) = None /\ errOnce (g σ) = false /\
  (forall t v, In (EvRet t OpDone v) (trace σ) -> v = VBool pd) /\
  (forall ev, In ev (trace σ) -> is_cancel ev = false /\ is_fail ev = false).
Proof.
  intros Hs R.
  assert (I : harmless_inv pd σ).
  { revert R. apply (run_invariant (harmless_inv pd)).
    - intros i j a b. apply harmless_inv_step.
    - apply harmless_inv_init, Hs. }
  destruct I as (Hx & Ho & He & _ & Hf). rewrite Forall_forall in Hf.
  split; [exact Hx|]. split; [exact He|]. split; [exact Ho|]. split.
  - intros t v Hin. exact (Hf _ (proj2 (list_elem_of_In _ _) Hin)).
  - intros ev Hin. pose proof (Hf _ (proj2 (list_elem_of_In _ _) Hin)) as Hev.
    destruct ev; simpl in *; tauto.
Qed.

(** A subtask that returns [nil] has finished, and [Done()] reads not
    fired. *)
Lemma success_never_cancels_witness :
  exists σ, run [(0,0); (0,0); (1,0); (1,0); (1,0); (1,0); (0,0)]
              (init false [[CGo (const_task None); CDone]]) = Some σ /\
    threads σ = [Client []; Exit] /\
    ctx (g σ) = false /\
    In (EvRet 0 OpDone (VBool false)) (trace σ).
Proof.
  eexists. split; [vm_compute; reflexivity|]. split; [reflexivity|].
  split; [|left; reflexivity].
  refine (proj1 (success_never_cancels false
            [[CGo (const_task None); CDone]]
            [(0,0); (0,0); (1,0); (1,0); (1,0); (1,0); (0,0)] _ _ _)).
  - repeat constructor.
  - vm_compute; reflexivity.
Defined.

(** ** A gate that was replaced *)

Lemma abandoned_step c i j σ σ' t f k :
  abandoned c σ -> threads σ !! t = Some (Go_parked c f k) ->
  step i j σ = Some σ' ->
  abandoned c σ' /\ threads σ' !! t = Some (Go_parked c f k).
Proof.
  unfold abandoned. intros (Hs & Hc & Hr) Et H.
  pose proof (lookup_lt_Some _ _ _ Et) as Lt.
  step_inv H; simpl in *.
  all: pose proof (sumf_lookup (receiver c) _ _ _ E) as Lr; simpl in Lr.
  all: rewrite ?record_sem, ?length_insert, ?length_app.
  all: split_ifs; try lia.
  all: same_lookup.
  all: try match goal with
       | H1 : Some _ = Some _ |- _ => inversion H1; subst; clear H1
       end.
  all: try congruence.
  all: split;
    [ repeat split; try assumption; try lia; try congruence;
      try (intros [= Heq]; lia);
      try (sumf_for (receiver c); simpl in *; split_ifs; try lia; congruence)
    | try assumption;
      try (repeat first
             [ rewrite list_lookup_insert_ne by (intros ->; congruence)
             | rewrite lookup_app_l by (rewrite ?length_insert; assumption) ];
           assumption) ].
Qed.

(** X16.  A caller of [Go] that is parked on a gate which [SetLimit] has
    since replaced or removed is never released: [done] receives from the
    gate of the moment, so when no goroutine is about to receive from the
    old gate, the caller stays parked in every continuation, whatever the
    other goroutines do. *)
Theorem Go_parked_on_replaced_gate_stays c σ t f k sched σ' :
  threads σ !! t = Some (Go_parked c f k) ->
  sem (g σ) <> Some c ->
  c < length (chans σ) ->
  sumf (receiver c) (threads σ) = 0 ->
  run sched σ = Some σ' ->
  threads σ' !! t = Some (Go_parked c f k) /\
  (forall j, step t j σ' = None) /\
  sem (g σ') <> Some c.
Proof.
  intros Et Hs Hc Hr R.
  assert (I : abandoned c σ' /\ threads σ' !! t = Some (Go_parked c f k)).
  { revert R.
    apply (run_invariant
             (fun s => abandoned c s /\ threads s !! t = Some (Go_parked c f k))).
    - intros i j a b (Ia & Ea) S. eapply abandoned_step; eauto.
    - unfold abandoned. auto. }
  destruct I as ((Hs' & _ & _) & Et').
  split; [exact Et'|]. split; [|exact Hs'].
  intros j. unfold step. rewrite Et'. reflexivity.
Qed.

Lemma stranded_run : run stranded_sched stranded_mid = Some stranded_end.
Proof. vm_compute. reflexivity. Qed.

(** The closed gate is replaced by one with a free slot; a subtask runs
    and ends under the new gate, and the caller of [Go] is still parked
    on the old one. *)
Lemma Go_parked_on_replaced_gate_stays_witness :
  run [(0,0); (0,0); (0,0); (1,0)] stranded = Some stranded_mid /\
  sem (g stranded_mid) = Some 1 /\
  threads stranded_end =
    [Go_parked 0 (const_task None) []; Client []; Exit] /\
  forall j, step 0 j stranded_end = None.
Proof.
  split; [vm_compute; reflexivity|]. split; [reflexivity|].
  split; [reflexivity|].
  refine (proj1 (proj2
            (Go_parked_on_replaced_gate_stays 0 stranded_mid 0
               (const_task None) [] stranded_sched stranded_end eq_refl _ _
               eq_refl stranded_run))).
  - discriminate.
  - simpl. lia.
Defined.

(** ** Completion *)

Lemma limits_step i j σ σ' :
  sumf limits (threads σ) = 0 -> step i j σ = Some σ' ->
  sumf limits (threads σ') = 0 /\
  limit_calls (trace σ') = limit_calls (trace σ).
Proof.
  intros Hl H.
  step_inv H; simpl in *; rewrite ?limit_calls_app, ?limit_calls_record;
    unfold limit_calls; simpl.
  all: pose proof (sumf_lookup limits _ _ _ E) as Ll; simpl in Ll.
  all: try lia.
  all: try match goal with
       | H1 : threads _ !! ?jj = Some ?q |- _ =>
           lazymatch q with done_parked _ => idtac | Go_parked _ _ _ => idtac end;
           pose proof (sumf_lookup limits _ _ _ H1); simpl in *
       end.
  all: split; [|reflexivity].
  all: sumf_for limits; simpl in *; rewrite ?E in *; simpl in *; lia.
Qed.

Lemma forallb_finished_false (l : list pc) :
  forallb finished l = false ->
  exists t p, l !! t = Some p /\ finished p = false.
Proof.
  induction l as [|q l IH]; simpl; [discriminate|].
  destruct (finished q) eqn:F; simpl.
  - intros H. destruct (IH H) as (t & p & E & Hp). exists (S t), p. auto.
  - intros _. exists 0, q. auto.
Qed.

Lemma forallb_finished_lookup (l : list pc) t p :
  forallb finished l = true -> l !! t = Some p -> finished p = true.
Proof.
  revert t. induction l as [|q l IH]; intros [|t] H E; simpl in *;
    try discriminate; apply andb_prop in H as [Hq Hl].
  - inversion E; subst. exact Hq.
  - eauto.
Qed.

(** A group that keeps an invariant under which some goroutine can always
    go on runs to the end. *)
Lemma completes (I : config -> Prop) :
  (forall i j σ σ', I σ -> step i j σ = Some σ' -> I σ') ->
  (forall σ t p, I σ -> threads σ !! t = Some p -> finished p = false ->
     exists i j σ', step i j σ = Some σ') ->
  forall n σ, sumf mu (threads σ) <= n -> I σ ->
  exists sched σ', run sched σ = Some σ' /\ I σ' /\
    forallb finished (threads σ') = true.
Proof.
  intros Hstep Hprog. induction n as [|n IH]; intros σ Hm HI.
  - destruct (forallb finished (threads σ)) eqn:F.
    + exists [], σ. auto.
    + destruct (forallb_finished_false _ F) as (t & p & E & Hp).
      destruct (Hprog _ _ _ HI E Hp) as (i & j & σ1 & S1).
      apply mu_step in S1. lia.
  - destruct (forallb finished (threads σ)) eqn:F.
    + exists [], σ. auto.
    + destruct (forallb_finished_false _ F) as (t & p & E & Hp).
      destruct (Hprog _ _ _ HI E Hp) as (i & j & σ1 & S1).
      pose proof (mu_step _ _ _ _ S1) as Hlt.
      destruct (IH σ1) as (sched & σ' & R & HI' & F');
        [lia | eapply Hstep; eauto |].
      exists ((i, j) :: sched), σ'. simpl. rewrite S1. auto.
Qed.

Lemma filter_none (f : cmd -> bool) (k : list cmd) :
  existsb f k = false -> length (List.filter f k) = 0.
Proof.
  induction k as [|c k IH]; simpl; [reflexivity|].
  intros H. apply orb_false_elim in H as [Hc Hk]. rewrite Hc. auto.
Qed.

Lemma limits_init pd scripts :
  existsb (existsb is_SetLimit) scripts = false ->
  sumf limits (threads (init pd scripts)) = 0.
Proof.
  simpl. induction scripts as [|k l IH]; simpl; [reflexivity|].
  intros H. apply orb_false_elim in H as [Hk Hl].
  rewrite (filter_none _ _ Hk), IH by assumption. reflexivity.
Qed.

Lemma sumf_finished w (l : list pc) :
  (forall p, finished p = true -> w p = 0) ->
  forallb finished l = true -> sumf w l = 0.
Proof.
  intros Hw. induction l as [|q l IH]; simpl; [reflexivity|].
  intros H. apply andb_prop in H as [Hq Hl].
  rewrite (Hw q Hq), IH by assumption. reflexivity.
Qed.

Lemma limit_panics_le tr :
  length (List.filter is_limit_panic tr) <= limit_calls tr.
Proof.
  unfold limit_calls. induction tr as [|ev tr IH]; simpl; [lia|].
  destruct ev as [| | | | |t o v|t o]; try destruct o; simpl; lia.
Qed.

Lemma run_snoc sched i j σ σ1 σ2 :
  run sched σ = Some σ1 -> step i j σ1 = Some σ2 ->
  run (sched ++ [(i, j)]) σ = Some σ2.
Proof. intros R S. rewrite run_app, R. simpl. rewrite S. reflexivity. Qed.

(** X17.  A group without a limit, with one client that never calls
    [SetLimit] and subtasks that all return, always runs to the end:
    every run can be continued to a state in which the client has made
    all its calls and every goroutine started by [Go] or [TryGo] has
    exited, with the pending count at zero and no panic.  So the group
    itself keeps no [Wait] and no [Cancel] from returning.  (With one
    client no [g.wg.Add] runs while a [g.wg.Wait] is blocked, as
    [sync.WaitGroup] requires.) *)
Theorem unlimited_group_completes stalls pd k sched σ :
  (forall f b, stalls f b = false) ->
  existsb is_SetLimit k = false ->
  run_b stalls sched (init pd [k]) = Some σ ->
  exists sched' σ', run_b stalls sched' σ = Some σ' /\
    (forall t p, threads σ' !! t = Some p -> p = Client [] \/ p = Exit) /\
    wg (g σ') = 0.
Proof.
  intros Hst Hn R. rewrite run_b_never in R by exact Hst.
  pose (I := fun s : config =>
    (exists sc, run sc (init pd [k]) = Some s) /\
    limit_calls (trace s) = 0 /\ sumf limits (threads s) = 0).
  assert (HI0 : I (init pd [k])).
  { split; [exists []; reflexivity|]. split; [reflexivity|].
    apply limits_init. simpl. rewrite Hn. reflexivity. }
  assert (Hstep : forall i j a b, I a -> step i j a = Some b -> I b).
  { intros i j a b ((sc & Ra) & Hc & Hl) S.
    destruct (limits_step _ _ _ _ Hl S) as (Hl' & Hc').
    split; [exists (sc ++ [(i, j)]); eapply run_snoc; eauto|].
    split; [lia | exact Hl']. }
  assert (HI : I σ).
  { revert R. apply (run_invariant I); assumption. }
  destruct (completes I Hstep) with (n := sumf mu (threads σ)) (σ := σ)
    as (sched' & σ' & R' & ((sc & Rs) & Hc & _) & F); auto.
  { intros a t p ((sc & Ra) & Hc & _) E Hp.
    apply (nil_progress a t p); auto.
    - eapply nil_inv_run; eauto.
    - apply (hist_inv_run _ _ _ _ Ra). }
  exists sched', σ'. split; [rewrite run_b_never by exact Hst; exact R'|].
  destruct (pending_inv_run _ _ _ _ Rs) as (Hw & Hp).
  pose proof (limit_panics_le (trace σ')) as Hle.
  assert (Hz : forall t p, threads σ' !! t = Some p -> p = Client [] \/ p = Exit).
  { intros t p E. pose proof (forallb_finished_lookup _ _ _ F E) as Hf.
    pose proof (sumf_lookup panicked _ _ _ E) as Lp.
    destruct p as [[|c k0]| | | | | | | | | | | | | | | |];
      simpl in Hf, Lp; try discriminate; auto. lia. }
  split; [exact Hz|]. rewrite Hw.
  assert (G : forall l, (forall t p, l !! t = Some p -> p = Client [] \/ p = Exit) ->
            sumf live l = 0).
  { induction l as [|q l IHl]; intros Hq; simpl; [reflexivity|].
    rewrite IHl by (intros t p E; apply (Hq (S t)); exact E).
    destruct (Hq 0 q eq_refl) as [-> | ->]; reflexivity. }
  apply G, Hz.
Qed.

(** In [two_failures], from the state in which the caller is blocked in
    [Wait]. *)
Lemma unlimited_group_completes_witness :
  exists σ, run_b returns_all [(0,0); (0,0); (0,0); (0,0)] two_failures
              = Some σ /\
    step_b returns_all 0 0 σ = None /\
    exists sched' σ', run_b returns_all sched' σ = Some σ' /\
      (forall t p, threads σ' !! t = Some p -> p = Client [] \/ p = Exit) /\
      wg (g σ') = 0.
Proof.
  eexists. split; [vm_compute; reflexivity|]. split; [reflexivity|].
  apply (unlimited_group_completes returns_all false
           [CGo (const_task (Some e1)); CGo (const_task (Some e2)); CWait]
           [(0,0); (0,0); (0,0); (0,0)]);
    [reflexivity | reflexivity | vm_compute; reflexivity].
Defined.

Lemma under_limit_step K i j σ σ' :
  under_limit K σ -> step i j σ = Some σ' ->
  limit_calls (trace σ') = limit_calls (trace σ) -> under_limit K σ'.
Proof.
  intros (pd & scripts & sched0 & σ0 & i0 & j0 & k & sched &
          R0 & E & Hb & Hl & R & Hn) S Hc.
  exists pd, scripts, sched0, σ0, i0, j0, k, (sched ++ [(i, j)]).
  repeat split; auto; [|lia].
  change ((i0, j0) :: sched ++ [(i, j)]) with (((i0, j0) :: sched) ++ [(i, j)]).
  eapply run_snoc; eauto.
Qed.

(** X18.  A group under a limit of at least one, with one client that
    has no call of [SetLimit] left to make and subtasks that all return,
    always runs to the end: every run can be continued to a state in
    which every goroutine has finished, with the pending count at zero
    and the gate empty.  So a caller blocked in [Go] gets its slot, and
    the group itself keeps no [Wait] and no [Cancel] from returning.
    (The client is the only goroutine that calls the group, so no
    [g.wg.Add] runs while a [g.wg.Wait] is blocked, as [sync.WaitGroup]
    requires.) *)
Theorem limited_group_completes stalls K σ :
  (forall f b, stalls f b = false) ->
  under_limit K σ -> 0 < K ->
  sumf clients (threads σ) <= 1 ->
  sumf limits (threads σ) = 0 ->
  exists sched' σ', run_b stalls sched' σ = Some σ' /\
    (forall t p, threads σ' !! t = Some p -> finished p = true) /\
    wg (g σ') = 0 /\
    chan_len (chans σ') (sem (g σ')) = 0.
Proof.
  intros Hst U HK _ Hl.
  pose (I := fun s : config => under_limit K s /\ sumf limits (threads s) = 0).
  assert (Hstep : forall i j a b, I a -> step i j a = Some b -> I b).
  { intros i j a b (Ua & La) S.
    destruct (limits_step _ _ _ _ La S) as (Lb & Hc).
    split; [eapply under_limit_step; eauto | exact Lb]. }
  destruct (completes I Hstep) with (n := sumf mu (threads σ)) (σ := σ)
    as (sched' & σ' & R' & (U' & _) & F); auto.
  { intros a t p (Ua & _) E Hp.
    destruct (under_limit_inv _ _ Ua) as (c & HI & HF & Hw).
    eapply gate_progress; eauto. }
  { split; assumption. }
  exists sched', σ'. split; [rewrite run_b_never by exact Hst; exact R'|].
  destruct (under_limit_inv _ _ U') as (c & (Hs & Hc & _) & _ & Hw).
  split; [intros t p E; eapply forallb_finished_lookup; eauto|].
  split.
  - rewrite Hw. apply sumf_finished; [|exact F].
    intros [[|]| | | | | | | | | | | | | | | |]; simpl; congruence.
  - unfold chan_len. rewrite Hs, Hc. simpl. apply sumf_finished; [|exact F].
    intros [[|]| | | | | | | | | | | | | | | |]; simpl; congruence.
Qed.

(** From [gate_parked], where the caller of [Go] waits for the slot. *)
Lemma limited_group_completes_witness :
  under_limit 1 gate_parked /\
  exists sched' σ', run_b returns_all sched' gate_parked = Some σ' /\
    (forall t p, threads σ' !! t = Some p -> finished p = true) /\
    wg (g σ') = 0 /\
    chan_len (chans σ') (sem (g σ')) = 0.
Proof.
  split; [exact gate_parked_under|].
  apply (limited_group_completes returns_all 1 gate_parked);
    [reflexivity | exact gate_parked_under | lia | simpl; lia | reflexivity].
Defined.

(** ** Submitting and waiting in turn *)

Lemma go_and_wait_head todo c k :
  c :: k = go_and_wait todo ->
  exists e todo', todo = e :: todo' /\ c = CGo (const_task e) /\
    k = CWait :: go_and_wait todo'.
Proof.
  destruct todo as [|e todo']; simpl; [discriminate|].
  intros [= -> ->]. eauto.
Qed.

Lemma before_go_and_wait todo : before (Client (go_and_wait todo)) = 1.
Proof. destruct todo; reflexivity. Qed.

Lemma first_nonempty_snoc l e :
  first_nonempty (l ++ [e]) =
  match first_nonempty l with Some m => Some m | None => e end.
Proof.
  induction l as [|[m|] l IH]; simpl; auto. destruct e; reflexivity.
Qed.

Lemma first_failure_record i e g0 tr :
  first_failure (record_events i e g0 ++ tr) =
  match first_failure tr with Some m => Some m | None => e end.
Proof.
  destruct e as [m|]; simpl; [|destruct (first_failure tr); reflexivity].
  destruct (errOnce g0); simpl; destruct (first_failure tr); reflexivity.
Qed.

Lemma count_waits_record i e g0 tr :
  count_waits (record_events i e g0 ++ tr) = count_waits tr.
Proof.
  unfold count_waits. destruct e as [m|]; simpl; [|reflexivity].
  destruct (errOnce g0); reflexivity.
Qed.

Lemma waits_ok_record errs i e g0 tr :
  waits_ok errs tr -> waits_ok errs (record_events i e g0 ++ tr).
Proof.
  intros H. destruct e as [m|]; simpl; [|exact H].
  destruct (errOnce g0); simpl; auto.
Qed.

Lemma blocked_go_and_wait todo : blocked (Client (go_and_wait todo)) = 0.
Proof. destruct todo; reflexivity. Qed.

Lemma first_failure_skip ev tr :
  is_fail ev = false -> first_failure (ev :: tr) = first_failure tr.
Proof.
  intros H. simpl. destruct (first_failure tr); [reflexivity|].
  destruct ev; simpl in H; try reflexivity. discriminate.
Qed.

Lemma firstn_snoc (done : list error) e todo :
  firstn (S (length done)) (done ++ e :: todo) = done ++ [e].
Proof.
  induction done as [|d l IH]; simpl; [reflexivity|].
  simpl in IH. rewrite IH. reflexivity.
Qed.

Lemma running_le_live (l : list pc) : sumf running l <= sumf live l.
Proof. apply sumf_le. intros []; simpl; lia. Qed.

(** The weights of the pool after a step, for [lia]. *)
Ltac weights :=
  repeat match goal with
  | |- context [sumf ?w (<[?i := ?p]> ?l)] =>
      lazymatch goal with
      | _ : sumf w (<[i := p]> l) + _ = _ |- _ => fail
      | _ => sumf_term w (<[i := p]> l)
      end
  | |- context [sumf ?w (?l1 ++ ?l2)] =>
      lazymatch goal with
      | _ : sumf w (l1 ++ l2) = _ |- _ => fail
      | _ => sumf_term w (l1 ++ l2)
      end
  end.

Lemma count_waits_skip ev tr :
  is_Wait_ret ev = false -> count_waits (ev :: tr) = count_waits tr.
Proof. intros H. unfold count_waits. simpl. rewrite H. reflexivity. Qed.

(** A goroutine that is neither the client nor live has exited. *)
Lemma seq_shape_idle todo todo' q :
  before q + blocked q + waiting q = 0 -> live q = 0 ->
  seq_shape todo q -> seq_shape todo' q.
Proof.
  destruct q as [[|[] k]| | | | | | | | | | | | | | | |]; simpl; try lia; auto.
  all: intros _ _ [H | (e & t & _ & H)]; try discriminate.
  all: apply go_and_wait_head in H; destruct H as (e & t & _ & H & _);
       discriminate.
Qed.

Lemma seq_shape_idle_all todo todo' (l : list pc) :
  sumf before l + sumf blocked l + sumf waiting l = 0 -> sumf live l = 0 ->
  Forall (seq_shape todo) l -> Forall (seq_shape todo') l.
Proof.
  induction l as [|q l IH]; simpl; intros Hp Hl H; [constructor|].
  apply Forall_cons in H as [Hq H].
  constructor; [|apply IH; auto; lia].
  apply (seq_shape_idle todo); auto; lia.
Qed.

Lemma seq_shape_others todo todo' (l : list pc) i p p' :
  l !! i = Some p -> before p + blocked p + waiting p = 1 ->
  sumf before l + sumf blocked l + sumf waiting l = 1 -> sumf live l = 0 ->
  Forall (seq_shape todo) l -> seq_shape todo' p' ->
  Forall (seq_shape todo') (<[i := p']> l).
Proof.
  revert i. induction l as [|q l IH]; intros [|i] E Hp Hs Hl H Hp';
    simpl in *; try discriminate; apply Forall_cons in H as [Hq H].
  - inversion E; subst. constructor; [assumption|].
    apply (seq_shape_idle_all todo); auto; lia.
  - pose proof (sumf_lookup before _ _ _ E).
    pose proof (sumf_lookup blocked _ _ _ E).
    pose proof (sumf_lookup waiting _ _ _ E).
    constructor.
    + apply (seq_shape_idle todo); auto; lia.
    + apply (IH i); auto; lia.
Qed.

Ltac open_seq :=
  unfold seq_inv, emit, set_pc, set_g, go_func;
  cbn [trace threads g chans app];
  rewrite ?first_failure_skip, ?count_waits_skip by reflexivity;
  rewrite ?first_failure_record, ?count_waits_record, ?record_sem.

Ltac seq_arith HF1 HF2 :=
  weights; simpl in *; try lia;
  try (intros; first [apply HF1; lia | apply HF2; lia]).

Lemma seq_inv_step errs pd i j σ σ' :
  hist_inv pd σ -> seq_inv errs σ -> step i j σ = Some σ' -> seq_inv errs σ'.
Proof.
  intros (Hwg & (Herr & _) & _)
         (done & todo & He & Hc & Hs & Hshape & Hph & Hlive & Hq & HF1 & HF2 & Hw) H.
  unfold wg_inv in Hwg. revert He.
  pose proof (running_le_live (threads σ)) as Hrl.
  step_inv H; simpl in *; intros He.
  all: pose proof (Forall_lookup_1 _ _ _ _ Hshape E) as Pi; simpl in Pi.
  all: try contradiction.
  all: try congruence.
  all: try (destruct Pi as [Pi | (e0 & todo0 & _ & Pi)];
            [apply go_and_wait_head in Pi; destruct Pi as (e0 & todo0 & _ & Pi & _)|];
            discriminate).
  all: pose proof (sumf_lookup before _ _ _ E) as Lb;
       pose proof (sumf_lookup blocked _ _ _ E) as Lk;
       pose proof (sumf_lookup waiting _ _ _ E) as Lw;
       pose proof (sumf_lookup live _ _ _ E) as Ll;
       pose proof (sumf_lookup running _ _ _ E) as Lr; simpl in Lb, Lk, Lw, Ll, Lr.
  - (* Go, line 82 *)
    destruct Pi as [Pi | (e0 & todo0 & _ & Pi)]; [|discriminate].
    apply go_and_wait_head in Pi. destruct Pi as (e & todo' & -> & [= ->] & ->).
    exists done, (e :: todo'). open_seq.
    repeat split; auto.
    + apply Forall_insert; [assumption|]. simpl. eauto.
    + seq_arith HF1 HF2.
    + seq_arith HF1 HF2.
    + seq_arith HF1 HF2.
    + seq_arith HF1 HF2.
    + seq_arith HF1 HF2.
  - (* Wait, line 70 *)
    destruct Pi as [Pi | (e & todo' & -> & [= ->])];
      [apply go_and_wait_head in Pi; destruct Pi as (? & ? & _ & Pi & _);
       discriminate|].
    apply Nat.eqb_eq in E3.
    exists done, (e :: todo'). open_seq.
    repeat split; auto.
    + apply Forall_insert; [assumption|]. simpl. eauto.
    + seq_arith HF1 HF2.
    + seq_arith HF1 HF2.
    + seq_arith HF1 HF2.
    + seq_arith HF1 HF2.
    + seq_arith HF1 HF2.
  - (* Go, lines 86-96 *)
    destruct Pi as (e & todo' & -> & -> & ->).
    exists done, (e :: todo'). open_seq.
    repeat split; auto.
    + apply Forall_insert.
      * apply Forall_app. split; [assumption|].
        constructor; [simpl; eauto | constructor].
      * simpl. right. eauto.
    + seq_arith HF1 HF2.
    + seq_arith HF1 HF2.
    + seq_arith HF1 HF2.
    + seq_arith HF1 HF2.
    + seq_arith HF1 HF2.
  - (* Wait, line 71 *)
    destruct Pi as (e & todo' & -> & ->).
    exists done, (e :: todo'). open_seq.
    repeat split; auto.
    + apply Forall_insert; [assumption|]. simpl. eauto.
    + seq_arith HF1 HF2.
    + seq_arith HF1 HF2.
    + seq_arith HF1 HF2.
    + seq_arith HF1 HF2.
    + seq_arith HF1 HF2.
  - (* Wait, line 72 *)
    destruct Pi as (e & todo' & -> & ->).
    assert (Hl0 : sumf live (threads σ) = 0) by (apply Hq; lia).
    assert (HF : first_failure (trace σ) = first_nonempty (done ++ [e])).
    { apply HF2. lia. }
    exists (done ++ [e]), todo'. open_seq.
    pose proof (before_go_and_wait todo') as Bg.
    pose proof (blocked_go_and_wait todo') as Kg.
    repeat split; auto.
    + rewrite <- app_assoc. exact He.
    + unfold count_waits in *. simpl. rewrite length_app. simpl. lia.
    + apply (seq_shape_others (e :: todo') todo' _ i (Wait_ret (go_and_wait todo')));
        auto. simpl. left. reflexivity.
    + weights; simpl in *; lia.
    + weights; simpl in *; lia.
    + weights; simpl in *; lia.
    + weights; simpl in *; lia.
    + f_equal. rewrite Herr, HF, Hc, He, firstn_snoc. reflexivity.
  - (* line 90 *)
    destruct Pi as (e & todo' & -> & ->).
    exists done, (e :: todo'). open_seq.
    repeat split; auto.
    + apply Forall_insert; [assumption|]. simpl. unfold const_task. eauto.
    + seq_arith HF1 HF2.
    + seq_arith HF1 HF2.
    + seq_arith HF1 HF2.
    + seq_arith HF1 HF2.
    + seq_arith HF1 HF2.
  - (* lines 90-95 *)
    destruct Pi as (todo' & ->).
    assert (HF : first_failure (trace σ) = first_nonempty done).
    { apply HF1. lia. }
    exists done, (e :: todo'). open_seq.
    repeat split; auto.
    + apply Forall_insert; [assumption|]. exact I.
    + seq_arith HF1 HF2.
    + seq_arith HF1 HF2.
    + seq_arith HF1 HF2.
    + weights; simpl in *. intros Hp.
      assert (sumf before (threads σ) = 0); [|lia].
      destruct (sumf before (threads σ)) eqn:B; [reflexivity|].
      assert (sumf live (threads σ) = 0) by (apply Hq; lia). lia.
    + intros _. simpl. rewrite first_nonempty_snoc, HF. reflexivity.
    + apply waits_ok_record. exact Hw.
  - (* done, line 41 *)
    exists done, todo. open_seq.
    repeat split; auto.
    + apply Forall_insert; [assumption|]. exact I.
    + seq_arith HF1 HF2.
    + seq_arith HF1 HF2.
    + seq_arith HF1 HF2.
    + seq_arith HF1 HF2.
    + seq_arith HF1 HF2.
  - (* done, line 44, with nothing pending *) lia.
  - (* done, line 44 *)
    exists done, todo. open_seq.
    repeat split; auto.
    + apply Forall_insert; [assumption|]. exact I.
    + seq_arith HF1 HF2.
    + seq_arith HF1 HF2.
    + seq_arith HF1 HF2.
    + seq_arith HF1 HF2.
    + seq_arith HF1 HF2.
Qed.

Lemma seq_inv_init errs pd : seq_inv errs (init pd [go_and_wait errs]).
Proof.
  exists [], errs. unfold seq_inv; simpl.
  pose proof (before_go_and_wait errs) as Bg.
  pose proof (blocked_go_and_wait errs) as Kg. simpl in Bg, Kg.
  rewrite Bg, Kg.
  repeat split; auto; try lia.
  constructor; [simpl; auto | constructor].
Qed.

Lemma seq_inv_run errs pd sched σ :
  run sched (init pd [go_and_wait errs]) = Some σ -> seq_inv errs σ.
Proof.
  intros R.
  assert (I : hist_inv pd σ /\ seq_inv errs σ).
  { revert R. apply (run_invariant (fun s => hist_inv pd s /\ seq_inv errs s)).
    - intros i j a b (Hh & Hq) S. split; [eapply hist_inv_step; eauto|].
      eapply seq_inv_step; eauto.
    - split; [apply hist_inv_init | apply seq_inv_init]. }
  apply I.
Qed.

Lemma waits_ok_app errs later earlier :
  waits_ok errs (later ++ earlier) -> waits_ok errs earlier.
Proof.
  induction later as [|ev l IH]; simpl; [auto|]. intros [_ H]. auto.
Qed.

(** X19.  A client that submits its subtasks one at a time, calling
    [Wait] after each [Go] as [TestZeroGroup] does, gets the errors in
    the order of submission: in every interleaving the [n]-th [Wait]
    returns the first non-nil error among the first [n] submitted, and
    [nil] if there is none. *)
Theorem Wait_after_each_Go_first_by_submission pd errs sched σ later t v
    earlier :
  run sched (init pd [go_and_wait errs]) = Some σ ->
  trace σ = later ++ EvRet t OpWait v :: earlier ->
  v = VErr (first_nonempty (firstn (S (count_waits earlier)) errs)).
Proof.
  intros R T.
  destruct (seq_inv_run _ _ _ _ R) as (done & todo & _ & _ & _ & _ & _ & _ &
                                       _ & _ & _ & Hw).
  rewrite T in Hw. apply waits_ok_app in Hw. simpl in Hw. apply Hw.
Qed.

(** In [zero_group] both calls of [Wait] return the first error. *)
Lemma Wait_after_each_Go_first_by_submission_witness :
  trace zero_group_end =
    [] ++ EvRet 0 OpWait (VErr (Some e1)) ::
      [EvCancel 0; EvFail 2 e2; EvRet 0 OpGo VUnit;
       EvStart (const_task (Some e2));
       EvRet 0 OpWait (VErr (Some e1));
       EvCancel 0; EvCancel 1; EvSetErr 1 e1; EvFail 1 e1;
       EvRet 0 OpGo VUnit; EvStart (const_task (Some e1))] /\
  VErr (Some e1) = VErr (first_nonempty (firstn 2 [Some e1; Some e2])).
Proof.
  split; [reflexivity|].
  exact (Wait_after_each_Go_first_by_submission false [Some e1; Some e2]
           zero_group_sched zero_group_end [] 0 (VErr (Some e1)) _
           zero_group_run eq_refl).
Defined.
